(** * NationsAPI: the request pipeline of the country-data gateway

    A shallow embedding of the two Express servers of the repository:

    - [VariantA] is the server with the in-memory cache, the error
      classifier, the paginated listing and the detail endpoint with
      field selection;
    - [VariantB] is [rest-countries-app/backend/server.js]: the bearer
      guard, [formatCountry] and the detail endpoint with the
      full-text / relaxed fallback.

    JavaScript values are modelled by [JsVal]; a handler is a function from
    the request and the behaviour of the upstream provider to the response
    it sends, threading the log of upstream requests; an exception is a
    value of [Throw]. *)

From Stdlib Require Import ZArith Ascii String List Bool Lia.
From stdpp Require Import base tactics option list strings gmap pretty.

Set Warnings "-register-all".
Local Open Scope Z_scope.

(** ** JavaScript values and the string primitives the servers call *)

Module Js.

(** JSON-shaped values.  Numbers are the integers (the servers only test
    them against zero and compare statuses); an object is the sequence of
    its own properties in insertion order. *)
Inductive JsVal : Type :=
  | JUndefined
  | JNull
  | JBool (b : bool)
  | JNum (z : Z)
  | JStr (s : string)
  | JArr (l : list JsVal)
  | JObj (o : list (string * JsVal)).

(** ToBoolean: what [if (v)], [!v] and [v || w] look at. *)
Definition truthy (v : JsVal) : bool :=
  match v with
  | JUndefined | JNull => false
  | JBool b => b
  | JNum z => negb (z =? 0)
  | JStr s => negb (String.eqb s "")
  | JArr _ | JObj _ => true
  end.

(** [a || b] *)
Definition js_or (a b : JsVal) : JsVal := if truthy a then a else b.

(** Own property lookup in an object literal or a parsed JSON object. *)
Fixpoint obj_get (o : list (string * JsVal)) (k : string) : option JsVal :=
  match o with
  | [] => None
  | (k', v) :: o' => if String.eqb k' k then Some v else obj_get o' k
  end.

(** [o[k] = v] on a plain object: overwrite in place or append. *)
Fixpoint obj_set (o : list (string * JsVal)) (k : string) (v : JsVal)
  : list (string * JsVal) :=
  match o with
  | [] => [(k, v)]
  | (k', v') :: o' =>
      if String.eqb k' k then (k', v) :: o' else (k', v') :: obj_set o' k v
  end.

(** Results of code that may throw. *)
Inductive Throw (E A : Type) : Type :=
  | Ok (a : A)
  | Thrown (e : E).
Arguments Ok {E A} a.
Arguments Thrown {E A} e.

(** [try { ... } catch] chains: run [k] on a result, pass a throw on. *)
Definition and_then {E A B} (t : Throw E A) (k : A -> Throw E B) : Throw E B :=
  match t with
  | Ok a => k a
  | Thrown e => Thrown e
  end.

(** *** Numbers

    The numbers of the handlers are doubles with an integer value, the
    infinities and NaN (the sign of a zero is not kept: it never shows in a
    slice or in a JSON body). *)
Inductive JsNumber : Type :=
  | Finite (z : Z)
  | PosInfinity
  | NegInfinity
  | NaN.

(** The double nearest to an integer, ties going to the even significand:
    an integer of size below [2^53] is a double as it is; a larger one keeps
    its 53 leading bits, rounded; from [2^1024 - 2^970] on the result is an
    infinity. *)
Definition round_double (z : Z) : JsNumber :=
  let a := Z.abs z in
  if a <? 2 ^ 53 then Finite z
  else
    let e := Z.log2 a - 52 in
    let q := a / 2 ^ e in
    let r := a mod 2 ^ e in
    let half := 2 ^ (e - 1) in
    let q' :=
      if r <? half then q
      else if half <? r then q + 1
      else if Z.even q then q else q + 1 in
    let m := q' * 2 ^ e in
    if 2 ^ 1024 <=? m
    then (if z <? 0 then NegInfinity else PosInfinity)
    else Finite (if z <? 0 then - m else m).

(** The number a query text converts to, in arithmetic and under
    [parseInt], when the text is the decimal numeral of the integer [z]. *)
Definition to_number (z : Z) : JsNumber := round_double z.

Definition num_neg (a : JsNumber) : JsNumber :=
  match a with
  | Finite x => Finite (- x)
  | PosInfinity => NegInfinity
  | NegInfinity => PosInfinity
  | NaN => NaN
  end.

(** [a + b] *)
Definition num_add (a b : JsNumber) : JsNumber :=
  match a, b with
  | NaN, _ | _, NaN => NaN
  | Finite x, Finite y => round_double (x + y)
  | PosInfinity, NegInfinity | NegInfinity, PosInfinity => NaN
  | PosInfinity, _ | _, PosInfinity => PosInfinity
  | NegInfinity, _ | _, NegInfinity => NegInfinity
  end.

(** [a - b] *)
Definition num_sub (a b : JsNumber) : JsNumber := num_add a (num_neg b).

(** The sign of a number that is not NaN. *)
Definition num_sign (a : JsNumber) : Z :=
  match a with
  | Finite x => Z.sgn x
  | PosInfinity => 1
  | NegInfinity => -1
  | NaN => 0
  end.

(** [a * b] *)
Definition num_mul (a b : JsNumber) : JsNumber :=
  match a, b with
  | NaN, _ | _, NaN => NaN
  | Finite x, Finite y => round_double (x * y)
  | _, _ =>
      match num_sign a * num_sign b with
      | Z0 => NaN
      | Zpos _ => PosInfinity
      | Zneg _ => NegInfinity
      end
  end.

(** *** Strings

    A string is the sequence of its bytes (UTF-8).  The case mapping of the
    engine is known here on two kinds of text: the texts of Latin-1, the
    code points below U+0100, where it works point by point, and the words
    written in Greek letters alone, where the capital sigma depends on its
    place.  On any other text it is the engine's, taken as it is. *)

(** What the engine brings and the model does not decide. *)
Class Engine : Type := {
  (** [s.toLowerCase()] on a text that is neither Latin-1 nor a word of
      Greek letters *)
  unicode_lower : string -> string
}.

(** The code points of a text of Latin-1: a byte below 128 is its own
    point, the two bytes [C2 xx] and [C3 xx] code the points from 128 to
    255; any other byte ends the reading. *)
Fixpoint latin1_points (s : string) : option (list N) :=
  match s with
  | EmptyString => Some []
  | String c s' =>
      let n := N_of_ascii c in
      if (n <? 128)%N then option_map (cons n) (latin1_points s')
      else if (n =? 194)%N || (n =? 195)%N then
        match s' with
        | String d s'' =>
            let m := N_of_ascii d in
            if (128 <=? m)%N && (m <? 192)%N
            then option_map (cons ((n - 192) * 64 + (m - 128))%N)
                   (latin1_points s'')
            else None
        | EmptyString => None
        end
      else None
  end.

(** The bytes of a sequence of code points below U+0800: one byte below
    128, two bytes from there on. *)
Fixpoint points_text (l : list N) : string :=
  match l with
  | [] => EmptyString
  | n :: l' =>
      if (n <? 128)%N then String (ascii_of_N n) (points_text l')
      else String (ascii_of_N (192 + n / 64))
             (String (ascii_of_N (128 + n mod 64)) (points_text l'))
  end.

(** Lower-casing of a point of Latin-1: the letters A to Z and the letters
    from U+00C0 to U+00DE, the multiplication sign U+00D7 apart, move up by
    32; every other point stays. *)
Definition lower_point (n : N) : N :=
  if ((65 <=? n) && (n <=? 90) ||
      (192 <=? n) && (n <=? 222) && negb (n =? 215))%N
  then (n + 32)%N else n.

(** A Greek letter: a capital from U+0391 to U+03A9 (U+03A2 is no letter)
    or a small letter from U+03B1 to U+03C9. *)
Definition greek_letter (n : N) : bool :=
  ((913 <=? n) && (n <=? 937) && negb (n =? 930) ||
   (945 <=? n) && (n <=? 969))%N.

(** The code points of a word of Greek letters, two bytes each, [CE xx] or
    [CF xx]; anything else ends the reading. *)
Fixpoint greek_points (s : string) : option (list N) :=
  match s with
  | EmptyString => Some []
  | String c (String d s') =>
      let n := N_of_ascii c in
      let m := N_of_ascii d in
      let p := ((n - 192) * 64 + (m - 128))%N in
      if ((n =? 206) || (n =? 207))%N && (128 <=? m)%N && (m <? 192)%N
         && greek_letter p
      then option_map (cons p) (greek_points s')
      else None
  | String _ EmptyString => None
  end.

(** Lower-casing of a word of Greek letters: a capital moves up by 32,
    except that the capital sigma U+03A3 gives the final form U+03C2, not
    U+03C3, when it ends the word and a letter stands before it ([before]
    tells whether one does). *)
Fixpoint greek_lower (before : bool) (l : list N) : list N :=
  match l with
  | [] => []
  | n :: l' =>
      (if (n =? 931)%N && before && match l' with [] => true | _ => false end
       then 962%N
       else if (n <=? 937)%N then (n + 32)%N else n)
      :: greek_lower true l'
  end.

(** [s.toLowerCase()] *)
Definition toLowerCase {E : Engine} (s : string) : string :=
  match latin1_points s with
  | Some l => points_text (map lower_point l)
  | None =>
      match greek_points s with
      | Some l => points_text (greek_lower false l)
      | None => unicode_lower s
      end
  end.

(** [s.startsWith(p)] *)
Fixpoint startsWith (s p : string) {struct p} : bool :=
  match p with
  | EmptyString => true
  | String a p' =>
      match s with
      | EmptyString => false
      | String b s' => Ascii.eqb a b && startsWith s' p'
      end
  end.

(** [s.includes(sub)] *)
Fixpoint includes (s sub : string) : bool :=
  startsWith s sub ||
  match s with
  | EmptyString => false
  | String _ s' => includes s' sub
  end.

(** [s.split(sep)] for a one-character separator. *)
Fixpoint split (sep : ascii) (s : string) : list string :=
  match s with
  | EmptyString => [EmptyString]
  | String c s' =>
      if Ascii.eqb c sep then EmptyString :: split sep s'
      else match split sep s' with
           | h :: t => String c h :: t
           | [] => [String c EmptyString]
           end
  end.

Definition hex_digit (n : N) : ascii :=
  if (n <? 10)%N then ascii_of_N (48 + n) else ascii_of_N (55 + n).

(** The units [encodeURIComponent] leaves alone: letters, digits and
    [- _ . ! ~ * ' ( )]. *)
Definition uri_unreserved (c : ascii) : bool :=
  let n := N_of_ascii c in
  ((65 <=? n) && (n <=? 90) || (97 <=? n) && (n <=? 122) ||
   (48 <=? n) && (n <=? 57))%N ||
  existsb (Ascii.eqb c)
    ["-"; "_"; "."; "!"; "~"; "*"; "'"; "("; ")"]%char.

(** [encodeURIComponent(s)], on the UTF-8 bytes of [s]. *)
Fixpoint encodeURIComponent (s : string) : string :=
  match s with
  | EmptyString => EmptyString
  | String c s' =>
      if uri_unreserved c then String c (encodeURIComponent s')
      else
        let n := N_of_ascii c in
        String "%"%char
          (String (hex_digit (n / 16)) (String (hex_digit (n mod 16))
             (encodeURIComponent s')))
  end.

(** The index a property key denotes on an array or a string: a canonical
    decimal numeral. *)
Fixpoint digits_value (acc : nat) (s : string) : option nat :=
  match s with
  | EmptyString => Some acc
  | String c s' =>
      match Ascii.is_nat c with
      | Some d => digits_value (10 * acc + d)%nat s'
      | None => None
      end
  end.

Definition array_index (k : string) : option nat :=
  match k with
  | EmptyString => None
  | String "0"%char EmptyString => Some 0%nat
  | String "0"%char _ => None
  | _ => digits_value 0 k
  end.

Fixpoint chars (s : string) : list JsVal :=
  match s with
  | EmptyString => []
  | String c s' => JStr (String c EmptyString) :: chars s'
  end.

(** [v[k]] for a value that is neither [null] nor [undefined] (on those the
    access throws).  Inherited properties are functions and
    never reach a JSON body, so they read as [undefined] here. *)
Definition prop (v : JsVal) (k : string) : JsVal :=
  match v with
  | JObj o => default JUndefined (obj_get o k)
  | JArr l =>
      if String.eqb k "length" then JNum (Z.of_nat (length l))
      else match array_index k with
           | Some i => default JUndefined (l !! i)
           | None => JUndefined
           end
  | JStr s =>
      if String.eqb k "length" then JNum (Z.of_nat (String.length s))
      else match array_index k with
           | Some i => default JUndefined (chars s !! i)
           | None => JUndefined
           end
  | _ => JUndefined
  end.

Definition nullish (v : JsVal) : bool :=
  match v with JUndefined | JNull => true | _ => false end.

(** [v?.k] *)
Definition opt_get (v : JsVal) (k : string) : JsVal :=
  if nullish v then JUndefined else prop v k.

End Js.

(** ** Requests, responses, errors and the upstream provider *)

Module Http.
Import Js.

(** What a handler sends.  [body] is the value whose JSON text goes on the
    wire ([res.json(v)] hands [JSON.stringify(v)] to [res.send]); the text
    is a non-empty string for every value but [undefined], for which there
    is no text at all. *)
Record Response : Type := mkResponse {
  status : Z;
  body : JsVal
}.

(** An incoming request, as far as the middlewares look at it. *)
Record Request : Type := mkRequest {
  method : string;
  originalUrl : string;
  authorization : option string
}.

(** What a middleware does with a request: answer it, or call [next()]. *)
Inductive Passed : Type :=
  | Replied (r : Response)
  | Next.

(** A property of the body of a response, when the body is an object. *)
Definition obj_get_body (r : Response) (k : string) : option JsVal :=
  match body r with
  | JObj o => obj_get o k
  | _ => None
  end.

(** [res.json(v)] with no [res.status] before it. *)
Definition res_json (v : JsVal) : Response := mkResponse 200 v.

(** [error.response] of a rejected request. *)
Record UpstreamReply : Type := mkReply {
  reply_status : Z;
  reply_data : JsVal
}.

(** A thrown value: the rejection of an [axios] request ([response] when the
    provider answered with an error status, [request] when the request left
    and nothing came back) or an engine exception such as a [TypeError]
    (neither field). *)
Record JsError : Type := mkError {
  message : string;
  response : option UpstreamReply;
  request : bool
}.

(** An engine [TypeError]; [what] stands for the engine's message text. *)
Definition type_error (what : string) : JsError := mkError what None false.

(** The provider: given the URLs requested so far and the URL requested now,
    the data of its answer or the rejection. *)
Definition Upstream : Type := list string -> string -> Throw JsError JsVal.

(** Computations that talk to the provider thread the log of requests. *)
Definition Fetch (A : Type) : Type := list string -> A * list string.

(** [await axios.get(url)] *)
Definition axios_get (up : Upstream) (url : string)
  : Fetch (Throw JsError JsVal) :=
  fun log => (up log url, log ++ [url]).

Definition COUNTRIES_API : string := "https://restcountries.com/v3.1".

(** The index in [0, len] an argument of [slice] stands for: NaN is 0, a
    negative number counts from the end, everything is clamped. *)
Definition rel_index (len : Z) (n : JsNumber) : Z :=
  match n with
  | NaN => 0
  | PosInfinity => len
  | NegInfinity => 0
  | Finite z => if z <? 0 then Z.max (len + z) 0 else Z.min z len
  end.

(** [arr.slice(start, end)] *)
Definition slice {A} (l : list A) (start end_ : JsNumber) : list A :=
  let len := Z.of_nat (length l) in
  let k := rel_index len start in
  let final := rel_index len end_ in
  take (Z.to_nat (final - k)) (drop (Z.to_nat k) l).

End Http.

(** ** Variant A: cache, error classifier, listing and detail endpoints *)

Module VariantA.
Import Js Http.

(** *** The cache *)

(** Modelled from the spec: the entry of the store behind [memCache] (the
    [memory-cache] package is a dependency, not a source file): a value,
    the time it was written and how long it lives.  Times are milliseconds,
    the unit [cacheMiddleware] passes. *)
Record CacheEntry : Type := mkEntry {
  value : JsVal;
  createdAt : Z;
  ttl : Z
}.

(** Modelled from the spec: [get] of that store.  It misses when the key is
    absent or the entry expired, and expiry is decided at read time: an
    entry is gone once [now - createdAt > ttl]. *)
Definition mem_get (key : string) (now : Z) (c : gmap string CacheEntry)
  : option JsVal * gmap string CacheEntry :=
  match c !! key with
  | Some e =>
      if now - createdAt e >? ttl e then (None, delete key c)
      else (Some (value e), c)
  | None => (None, c)
  end.

(** Modelled from the spec: [put] of that store.  It always overwrites. *)
Definition mem_put (key : string) (v : JsVal) (time now : Z)
    (c : gmap string CacheEntry) : gmap string CacheEntry :=
  <[key := mkEntry v now time]> c.

(** [if (cachedContent)]: the cached content is the JSON text handed to
    [res.send], truthy unless the store missed or the text is [undefined]. *)
Definition cached_truthy (cachedContent : option JsVal) : bool :=
  match cachedContent with
  | Some JUndefined | None => false
  | Some _ => true
  end.

Definition cache_key (req : Request) : string :=
  "__express__" +:+ originalUrl req.

(** [cacheMiddleware(duration)] up to [next()]: replay on a hit (no
    [res.status] call, so the status is the default 200), pass on otherwise. *)
Definition cacheMiddleware (duration : Z) (req : Request) (now : Z)
    (c : gmap string CacheEntry) : Passed * gmap string CacheEntry :=
  let key := cache_key req in
  let '(cachedContent, c') := mem_get key now c in
  if cached_truthy cachedContent
  then (Replied (mkResponse 200 (default JUndefined cachedContent)), c')
  else (Next, c').

(** The [res.send] that [cacheMiddleware] installs before [next()]: whatever
    the handler sends later, at time [now], is stored under the key and then
    sent on unchanged. *)
Definition cached_send (duration : Z) (req : Request) (r : Response)
    (now : Z) (c : gmap string CacheEntry)
  : Response * gmap string CacheEntry :=
  (r, mem_put (cache_key req) (body r) (duration * 1000) now c).

(** A wrapped route seen from outside: a request arrives (and is replayed
    or handed to the handler), or the handler of an earlier miss sends. *)
Inductive Event : Type :=
  | Arrive (req : Request) (now : Z)
  | Send (req : Request) (r : Response) (now : Z).

Definition step (duration : Z) (ev : Event) (c : gmap string CacheEntry)
  : option Response * gmap string CacheEntry :=
  match ev with
  | Arrive req now =>
      match cacheMiddleware duration req now c with
      | (Replied r, c') => (Some r, c')
      | (Next, c') => (None, c')
      end
  | Send req r now =>
      let '(r', c') := cached_send duration req r now c in (Some r', c')
  end.

(** The responses a sequence of events produces, in order. *)
Fixpoint run (duration : Z) (evs : list Event) (c : gmap string CacheEntry)
  : list (option Response) * gmap string CacheEntry :=
  match evs with
  | [] => ([], c)
  | ev :: evs' =>
      let '(r, c') := step duration ev c in
      let '(rs, c'') := run duration evs' c' in
      (r :: rs, c'')
  end.

(** *** The error classifier *)

Definition handleApiError (error : JsError) : Response :=
  match response error with
  | Some resp =>
      mkResponse (reply_status resp)
        (JObj [("error", JStr "Erro na API externa");
               ("details", reply_data resp)])
  | None =>
      if request error then
        mkResponse 503
          (JObj [("error", JStr "Serviço indisponível");
                 ("message", JStr "A API de países não respondeu")])
      else
        mkResponse 500 (JObj [("error", JStr "Erro interno no servidor")])
  end.

(** *** GET /api/countries *)

(** [req.query] of the listing.  Express hands the parameters over as
    strings and the arithmetic of the handler converts them; a numeric
    parameter is given here by the integer its text denotes, of any size,
    and [to_number] is the double the handler computes with. *)
Record ListQuery : Type := mkQuery {
  q_page : option Z;
  q_limit : option Z;
  q_search : option string
}.

(** The callback of [countries.filter]:
    [country.name.common.toLowerCase().includes(search.toLowerCase())]. *)
Definition name_matches {E : Engine} (search : string) (country : JsVal)
  : Throw JsError bool :=
  if nullish country then
    Thrown (type_error "Cannot read properties of undefined (reading 'name')")
  else
    let name := prop country "name" in
    if nullish name then
      Thrown
        (type_error "Cannot read properties of undefined (reading 'common')")
    else
      match prop name "common" with
      | JStr common => Ok (includes (toLowerCase common) (toLowerCase search))
      | _ =>
          Thrown (type_error "country.name.common.toLowerCase is not a function")
      end.

(** [arr.filter(f)] for a callback that may throw. *)
Fixpoint js_filter (f : JsVal -> Throw JsError bool) (l : list JsVal)
  : Throw JsError (list JsVal) :=
  match l with
  | [] => Ok []
  | x :: l' =>
      and_then (f x) (fun keep =>
      and_then (js_filter f l') (fun rest =>
      Ok (if keep then x :: rest else rest)))
  end.

(** [if (search) countries = countries.filter(...)] *)
Definition filter_countries {E : Engine} (search : string)
    (countries : JsVal)
  : Throw JsError JsVal :=
  if truthy (JStr search) then
    match countries with
    | JArr l =>
        and_then (js_filter (name_matches search) l) (fun l' => Ok (JArr l'))
    | _ => Thrown (type_error "countries.filter is not a function")
    end
  else Ok countries.

(** [Math.ceil(n / d)] for a length [n] (a length is below [2^32], where
    the quotient of the doubles has the ceiling of the exact quotient):
    dividing by zero gives an infinity, or NaN for 0 / 0; dividing by an
    infinity gives zero. *)
Definition ceil_div (n : nat) (d : JsNumber) : JsNumber :=
  match d with
  | Finite d =>
      if d =? 0 then
        match n with O => NaN | S _ => PosInfinity end
      else Finite (- ((- Z.of_nat n) / d))
  | PosInfinity | NegInfinity => Finite 0
  | NaN => NaN
  end.

Record PageResult : Type := mkPage {
  total : Z;
  page : JsNumber;
  totalPages : JsNumber;
  data : JsVal
}.

Definition str_slice (s : string) (start end_ : JsNumber) : string :=
  string_of_list_ascii (slice (list_ascii_of_string s) start end_).

(** The pagination block, from [startIndex] to the object given to
    [res.json]; [page] and [limit] are the query values. *)
Definition paginate (page limit : Z) (countries : JsVal)
  : Throw JsError PageResult :=
  let startIndex :=
    num_mul (num_sub (to_number page) (Finite 1)) (to_number limit) in
  let endIndex := num_mul (to_number page) (to_number limit) in
  match countries with
  | JArr l =>
      let paginatedCountries := slice l startIndex endIndex in
      Ok (mkPage (Z.of_nat (length l)) (to_number page)
            (ceil_div (length l) (to_number limit))
            (JArr paginatedCountries))
  | JStr s =>
      Ok (mkPage (Z.of_nat (String.length s)) (to_number page)
            (ceil_div (String.length s) (to_number limit))
            (JStr (str_slice s startIndex endIndex)))
  | _ => Thrown (type_error "countries.slice is not a function")
  end.

(** A number in a JSON body: the infinities and [NaN] are written [null]. *)
Definition number_json (n : JsNumber) : JsVal :=
  match n with
  | Finite z => JNum z
  | PosInfinity | NegInfinity | NaN => JNull
  end.

Definition page_json (p : PageResult) : JsVal :=
  JObj [("total", JNum (total p));
        ("page", number_json (page p));
        ("totalPages", number_json (totalPages p));
        ("data", data p)].

(** What the listing does with the provider's data. *)
Definition list_page {E : Engine} (q : ListQuery) (countries : JsVal)
  : Throw JsError PageResult :=
  let page := default 1 (q_page q) in
  let limit := default 20 (q_limit q) in
  let search := default "" (q_search q) in
  and_then (filter_countries search countries) (paginate page limit).

(** The handler of [GET /api/countries]. *)
Definition get_countries {E : Engine} (up : Upstream) (q : ListQuery)
  : Fetch Response :=
  fun log =>
    let '(r, log1) := axios_get up (COUNTRIES_API +:+ "/all") log in
    match and_then r (list_page q) with
    | Ok p => (res_json (page_json p), log1)
    | Thrown error => (handleApiError error, log1)
    end.

(** *** GET /api/countries/:name *)

(** One round of [fieldList.forEach]: copy [countryData[field]] when it is
    truthy.  Assigning to the key [__proto__] of an object literal sets its
    prototype and adds no property. *)
Definition select_field (countryData : JsVal)
    (filteredData : list (string * JsVal)) (field : string)
  : Throw JsError (list (string * JsVal)) :=
  if nullish countryData then
    Thrown (type_error "Cannot read properties of undefined")
  else
    let v := prop countryData field in
    if truthy v then
      Ok (if String.eqb field "__proto__" then filteredData
          else obj_set filteredData field v)
    else Ok filteredData.

Fixpoint select_fields (countryData : JsVal) (fieldList : list string)
    (filteredData : list (string * JsVal))
  : Throw JsError (list (string * JsVal)) :=
  match fieldList with
  | [] => Ok filteredData
  | field :: rest =>
      and_then (select_field countryData filteredData field)
        (select_fields countryData rest)
  end.

(** The field filter: [if (fields) { ... countryData = filteredData }]. *)
Definition filter_fields (fields : option string) (countryData : JsVal)
  : Throw JsError JsVal :=
  if truthy (JStr (default "" fields)) then
    let fieldList := split "," (default "" fields) in
    and_then (select_fields countryData fieldList [])
      (fun filteredData => Ok (JObj filteredData))
  else Ok countryData.

(** [response.data[0]] *)
Definition first_of (data : JsVal) : Throw JsError JsVal :=
  if nullish data then
    Thrown (type_error "Cannot read properties of undefined (reading '0')")
  else Ok (prop data "0").

(** The handler of [GET /api/countries/:name]. *)
Definition get_country (up : Upstream) (name : string)
    (fields : option string) : Fetch Response :=
  fun log =>
    let '(r, log1) :=
      axios_get up (COUNTRIES_API +:+ "/name/" +:+ name) log in
    match and_then (and_then r first_of) (filter_fields fields) with
    | Ok countryData => (res_json countryData, log1)
    | Thrown error => (handleApiError error, log1)
    end.

(** *** The wrapped routes *)

(** [app.get(path, cacheMiddleware(duration), handler)] run for one request
    with no other request in between: the middleware at [arrive]; on a miss
    the handler, whose answer goes through the installed [res.send] at
    [sent]. *)
Definition cached_route (duration : Z) (handler : Fetch Response)
    (req : Request) (arrive sent : Z) (c : gmap string CacheEntry)
    (log : list string)
  : Response * gmap string CacheEntry * list string :=
  match cacheMiddleware duration req arrive c with
  | (Replied r, c') => (r, c', log)
  | (Next, c') =>
      let '(r, log') := handler log in
      let '(r', c'') := cached_send duration req r sent c' in
      (r', c'', log')
  end.

Definition listing_route {E : Engine} (up : Upstream) (q : ListQuery) :=
  cached_route 300 (get_countries up q).

Definition detail_route (up : Upstream) (name : string)
    (fields : option string) :=
  cached_route 300 (get_country up name fields).

End VariantA.

(** ** Variant B: bearer guard, formatting and the fallback fetch *)

Module VariantB.
Import Js Http.

(** [process.env.AUTH_TOKEN || 'secrettoken123'] *)
Definition AUTH_TOKEN (env : option string) : string :=
  match env with
  | Some t => if String.eqb t "" then "secrettoken123" else t
  | None => "secrettoken123"
  end.

Definition unauthorized : Response :=
  mkResponse 401 (JObj [("error", JStr "Não autorizado")]).

(** [auth.split(' ')[1] !== token] *)
Definition second_differs (auth token : string) : bool :=
  match split " " auth !! 1%nat with
  | Some t => negb (String.eqb t token)
  | None => true
  end.

Definition authMiddleware (token : string) (req : Request) : Passed :=
  match authorization req with
  | None => Replied unauthorized
  | Some auth =>
      if negb (truthy (JStr auth)) || negb (startsWith auth "Bearer ")
         || second_differs auth token
      then Replied unauthorized
      else Next
  end.

(** The own properties of an object, each key once (the first binding is
    the one [obj_get] reads), in insertion order; the keys of the provider's
    objects are names, not array indices, which would come first. *)
Fixpoint own_entries (o : list (string * JsVal)) : list (string * JsVal) :=
  match o with
  | [] => []
  | (k, v) :: o' =>
      (k, v) :: filter (fun kv => negb (String.eqb (fst kv) k)) (own_entries o')
  end.

(** [Object.entries(v)] for a truthy [v]. *)
Definition object_entries (v : JsVal) : list (string * JsVal) :=
  match v with
  | JObj o => own_entries o
  | JArr l => imap (fun i x => (pretty i, x)) l
  | JStr s => imap (fun i x => (pretty i, x)) (chars s)
  | _ => []
  end.

(** [Object.values(v)] for a truthy [v]. *)
Definition object_values (v : JsVal) : list JsVal :=
  map snd (object_entries v).

(** The callback [([code, { name, symbol }]) => ({ code, name, symbol })]:
    destructuring a [null] or [undefined] entry throws. *)
Definition currency_entry (kv : string * JsVal) : Throw JsError JsVal :=
  let '(code, c) := kv in
  if nullish c then
    Thrown (type_error "Cannot destructure property 'name'")
  else
    Ok (JObj [("code", JStr code);
              ("name", prop c "name");
              ("symbol", prop c "symbol")]).

Fixpoint map_throw {A B} (f : A -> Throw JsError B) (l : list A)
  : Throw JsError (list B) :=
  match l with
  | [] => Ok []
  | x :: l' =>
      and_then (f x) (fun y =>
      and_then (map_throw f l') (fun ys => Ok (y :: ys)))
  end.

Definition formatCountry (country : JsVal) : Throw JsError JsVal :=
  if nullish country then
    Thrown (type_error "Cannot read properties of undefined (reading 'name')")
  else
    let get := prop country in
    and_then
      (if truthy (get "currencies")
       then and_then (map_throw currency_entry (object_entries (get "currencies")))
              (fun l => Ok (JArr l))
       else Ok JNull)
      (fun currencies =>
    Ok (JObj
      [("name", js_or (opt_get (get "name") "common") JNull);
       ("officialName", js_or (opt_get (get "name") "official") JNull);
       ("code", js_or (get "cca2") JNull);
       ("cca3", js_or (get "cca3") JNull);
       ("flag", js_or (opt_get (get "flags") "svg")
                  (js_or (opt_get (get "flags") "png") JNull));
       ("population", js_or (get "population") JNull);
       ("region", js_or (get "region") JNull);
       ("subregion", js_or (get "subregion") JNull);
       ("capital", match get "capital" with
                   | JArr l => default JUndefined (l !! 0%nat)
                   | _ => JNull
                   end);
       ("languages", if truthy (get "languages")
                     then JArr (object_values (get "languages"))
                     else JNull);
       ("currencies", currencies);
       ("maps", JObj [("googleMaps", opt_get (get "maps") "googleMaps");
                      ("openStreetMaps", opt_get (get "maps") "openStreetMaps")]);
       ("timezones", js_or (get "timezones") JNull);
       ("coordinates", js_or (get "latlng") JNull)])).

Definition full_text_url (name : string) : string :=
  COUNTRIES_API +:+ "/name/" +:+ encodeURIComponent name +:+ "?fullText=true".

Definition relaxed_url (name : string) : string :=
  COUNTRIES_API +:+ "/name/" +:+ encodeURIComponent name.

(** [error.response?.status === code] *)
Definition status_is (error : JsError) (code : Z) : bool :=
  match response error with
  | Some resp => reply_status resp =? code
  | None => false
  end.

(** The inner [try]/[catch] of the detail handler: the full-text request,
    and the relaxed one when the first was rejected with 400 or 404. *)
Definition fetchByName (up : Upstream) (name : string)
  : Fetch (Throw JsError JsVal) :=
  fun log =>
    match axios_get up (full_text_url name) log with
    | (Ok data, log1) => (Ok data, log1)
    | (Thrown error, log1) =>
        if status_is error 400 || status_is error 404
        then axios_get up (relaxed_url name) log1
        else (Thrown error, log1)
    end.

Definition not_found : Response :=
  mkResponse 404
    (JObj [("error", JStr "País não encontrado");
           ("message", JStr "Nenhum país corresponde ao termo pesquisado")]).

(** The outer [catch]. *)
Definition failed (error : JsError) : Response :=
  mkResponse 404
    (JObj [("error", JStr "País não encontrado");
           ("details", JStr (message error))]).

(** [!response.data || response.data.length === 0] *)
Definition no_result (data : JsVal) : bool :=
  negb (truthy data) ||
  match prop data "length" with
  | JNum n => n =? 0
  | _ => false
  end.

(** The handler of [GET /api/countries/:name], after the guard. *)
Definition get_country (up : Upstream) (name : string) : Fetch Response :=
  fun log =>
    match fetchByName up name log with
    | (Ok data, log1) =>
        if no_result data then (not_found, log1)
        else
          match formatCountry (prop data "0") with
          | Ok country => (res_json country, log1)
          | Thrown error => (failed error, log1)
          end
    | (Thrown error, log1) => (failed error, log1)
    end.

(** The route: [authMiddleware] first, then the handler. *)
Definition country_route (token : string) (up : Upstream) (req : Request)
    (name : string) : Fetch Response :=
  fun log =>
    match authMiddleware token req with
    | Replied r => (r, log)
    | Next => get_country up name log
    end.

End VariantB.

(** ** The notions of the specification the properties are stated with *)

Module Spec.
Import Js Http.

(** The part of a URL before the first [?], and the parameters after it. *)
Definition url_path (u : string) : string := default "" (split "?" u !! 0%nat).

Definition url_params (u : string) : list string :=
  match split "?" u !! 1%nat with
  | Some q => split "&" q
  | None => []
  end.

(** Two requests are the same logical request: same method, same path, the
    same query parameters up to their order and their case. *)
Definition same_logical_request {E : Engine} (r1 r2 : Request) : Prop :=
  method r1 = method r2 /\
  url_path (originalUrl r1) = url_path (originalUrl r2) /\
  Permutation (map toLowerCase (url_params (originalUrl r1)))
              (map toLowerCase (url_params (originalUrl r2))).

(** An engine for the closed examples: each of their texts is Latin-1 or a
    word of Greek letters, so its case mapping is never consulted. *)
Definition sample_engine : Engine := {| unicode_lower := fun s => s |}.

(** A text of Latin-1: every code point is below U+0100. *)
Definition latin1_text (s : string) : Prop := is_Some (latin1_points s).

(** [term] occurs in [name] letter for letter. *)
Definition substring (term name : string) : Prop :=
  exists pre post, name = pre +:+ term +:+ post.

(** The letters of Latin-1 that have two cases, capital and small, in the
    same order. *)
Definition capitals : string :=
  "ABCDEFGHIJKLMNOPQRSTUVWXYZÀÁÂÃÄÅÆÇÈÉÊËÌÍÎÏÐÑÒÓÔÕÖØÙÚÛÜÝÞ".
Definition smalls : string :=
  "abcdefghijklmnopqrstuvwxyzàáâãäåæçèéêëìíîïðñòóôõöøùúûüýþ".

Definition letter_pairs : list (N * N) :=
  zip (default [] (latin1_points capitals))
      (default [] (latin1_points smalls)).

(** Two code points are the same letter up to case: the same point, or the
    capital and the small form of one letter. *)
Definition same_letter (c d : N) : Prop :=
  c = d \/ (c, d) ∈ letter_pairs \/ (d, c) ∈ letter_pairs.

(** Two texts of Latin-1 are equal up to the case of their letters. *)
Definition eq_nocase (s t : string) : Prop :=
  exists a b, latin1_points s = Some a /\ latin1_points t = Some b /\
    Forall2 same_letter a b.

(** [term] occurs in [name] as a substring, case ignored; both are texts of
    Latin-1. *)
Definition ci_substring (term name : string) : Prop :=
  exists t n, latin1_points term = Some t /\ latin1_points name = Some n /\
    exists pre mid post,
      n = pre ++ mid ++ post /\ Forall2 same_letter mid t.

(** The common name of a country record, when it has one. *)
Definition common_name (country : JsVal) : option string :=
  match opt_get (opt_get country "name") "common" with
  | JStr s => Some s
  | _ => None
  end.

(** A bearer token is one word: it holds no space. *)
Fixpoint one_word (t : string) : bool :=
  match t with
  | EmptyString => true
  | String c t' => negb (Ascii.eqb c " ") && one_word t'
  end.

(** The three ways a credential is invalid: no header, a header without the
    [Bearer ] prefix, a header that carries behind the prefix a token that
    is not the configured secret. *)
Inductive invalid_credential (token : string) : option string -> Prop :=
  | credential_missing : invalid_credential token None
  | credential_malformed auth :
      startsWith auth "Bearer " = false ->
      invalid_credential token (Some auth)
  | credential_mismatched t :
      t <> token ->
      invalid_credential token (Some ("Bearer " +:+ t)).

(** The first word of a text: what stands before its first space. *)
Fixpoint first_word (s : string) : string :=
  match s with
  | EmptyString => EmptyString
  | String c s' =>
      if Ascii.eqb c " " then EmptyString else String c (first_word s')
  end.

(** The credentials whose first word behind the prefix is not the secret,
    with the missing and the malformed ones. *)
Inductive rejected_credential (token : string) : option string -> Prop :=
  | rejected_missing : rejected_credential token None
  | rejected_malformed auth :
      startsWith auth "Bearer " = false ->
      rejected_credential token (Some auth)
  | rejected_word rest :
      first_word rest <> token ->
      rejected_credential token (Some ("Bearer " +:+ rest)).

(** A rejection that carries the provider's status 400 or 404. *)
Definition client_miss (error : JsError) : Prop :=
  exists resp, response error = Some resp /\
    (reply_status resp = 400 \/ reply_status resp = 404).

(** The names a field list selects on an object: those it lists, other
    than [__proto__], whose value on the object is truthy. *)
Definition selects (o : list (string * JsVal)) (fieldList : list string)
    (k : string) : bool :=
  existsb (String.eqb k) fieldList && negb (String.eqb k "__proto__")
  && truthy (default JUndefined (obj_get o k)).

(** A record with a common name, and a small table of them. *)
Definition country (common : string) : JsVal :=
  JObj [("name", JObj [("common", JStr common)])].

Definition world : list JsVal :=
  [country "United States"; country "Peru"; country "United Kingdom"].

(** An event that leaves the entry stored for [req] at [t0] alone and, when
    it is a request for the URL of [req], arrives while that entry lives:
    no other send for that URL, and every arrival for it before
    [t0 + duration * 1000]. *)
Definition quiet (duration : Z) (req : Request) (t0 : Z)
    (ev : VariantA.Event) : Prop :=
  match ev with
  | VariantA.Arrive req' now =>
      originalUrl req' = originalUrl req -> now < t0 + duration * 1000
  | VariantA.Send req' _ _ => originalUrl req' <> originalUrl req
  end.

(** The listing, the answer of a handler that got the data, and the answer
    of a handler whose upstream request got no reply. *)
Definition listing : Request := mkRequest "GET" "/api/countries" None.

Definition listing_ok : Response :=
  res_json (VariantA.page_json
              (VariantA.mkPage 1 (Finite 1) (Finite 1)
                 (JArr [country "Peru"]))).

Definition listing_unavailable : Response :=
  VariantA.handleApiError (mkError "timeout of 5000ms exceeded" None true).

(** The double [d] stands for the integer [v] as far as an index goes: it
    is [v] itself, or both are at least [T] (and [d] may be infinite). *)
Definition tracks (T v : Z) (d : JsNumber) : Prop :=
  d = Finite v \/
  (T <= v /\ (d = PosInfinity \/ exists w, d = Finite w /\ T <= w)).

(** The data of page [p] of a list, as the listing returns it. *)
Definition page_of (limit : Z) (l : list JsVal) (p : Z) : list JsVal :=
  match VariantA.paginate p limit (JArr l) with
  | Ok pr => match VariantA.data pr with JArr d => d | _ => [] end
  | Thrown _ => []
  end.

(** The fields of a formatted country, in the order [formatCountry] writes
    them. *)
Definition formatted_keys : list string :=
  ["name"; "officialName"; "code"; "cca3"; "flag"; "population"; "region";
   "subregion"; "capital"; "languages"; "currencies"; "maps"; "timezones";
   "coordinates"].

(** The fields [formatCountry] closes with [|| null]. *)
Definition or_null_keys : list string :=
  ["name"; "officialName"; "code"; "cca3"; "flag"; "population"; "region";
   "subregion"; "timezones"; "coordinates"].

(** Every unit of a string passes a test. *)
Fixpoint all_chars (f : ascii -> bool) (s : string) : bool :=
  match s with
  | EmptyString => true
  | String c s' => f c && all_chars f s'
  end.

(** The units of a percent-encoded string: the unreserved ones, the percent
    sign and the upper-case hexadecimal digits (which are unreserved). *)
Definition uri_safe (c : ascii) : bool :=
  uri_unreserved c || Ascii.eqb c "%".

(** A provider that answers every request with an empty array. *)
Definition empty_upstream : Upstream := fun _ _ => Ok (JArr []).

(** A provider that rejects the full-text request for "congo" with status
    400 and answers any other request with one record. *)
Definition congo_upstream : Upstream := fun _ url =>
  if String.eqb url "https://restcountries.com/v3.1/name/congo?fullText=true"
  then Thrown (mkError "Request failed with status code 400"
                 (Some (mkReply 400 JNull)) true)
  else Ok (JArr [JObj [("cca2", JStr "CG")]]).

(** A provider that has no exact match for "atlantis" and nothing under the
    relaxed query either. *)
Definition atlantis_upstream : Upstream := fun _ url =>
  if String.eqb url "https://restcountries.com/v3.1/name/atlantis?fullText=true"
  then Thrown (mkError "Request failed with status code 404"
                 (Some (mkReply 404 JNull)) true)
  else Ok (JArr []).

(** The same listing asked for twice, the parameters in two orders. *)
Definition page_then_limit : Request :=
  mkRequest "GET" "/api/countries?page=1&limit=5" None.
Definition limit_then_page : Request :=
  mkRequest "GET" "/api/countries?limit=5&page=1" None.

End Spec.

(** ** Properties of the error classifier *)

Section ErrorClassifier.
Import Js Http VariantA.

Lemma handleApiError_response error resp :
  response error = Some resp ->
  handleApiError error =
    mkResponse (reply_status resp)
      (JObj [("error", JStr "Erro na API externa");
             ("details", reply_data resp)]).
Proof. unfold handleApiError. by intros ->. Qed.

Lemma handleApiError_no_response error :
  response error = None -> request error = true ->
  handleApiError error =
    mkResponse 503
      (JObj [("error", JStr "Serviço indisponível");
             ("message", JStr "A API de países não respondeu")]).
Proof. unfold handleApiError. by intros -> ->. Qed.

Lemma handleApiError_internal error :
  response error = None -> request error = false ->
  handleApiError error =
    mkResponse 500 (JObj [("error", JStr "Erro interno no servidor")]).
Proof. unfold handleApiError. by intros -> ->. Qed.

(** C4. The classifier maps every failure: an upstream answer with an error
    status is mirrored, status and details; a request without an answer
    gives 503 and the message that the provider did not respond; any
    other failure gives 500 with the fixed text only, whatever the error
    holds. *)
Theorem error_classifier_cases (error : JsError) :
  (forall resp, response error = Some resp ->
     status (handleApiError error) = reply_status resp /\
     obj_get_body (handleApiError error) "error" =
       Some (JStr "Erro na API externa") /\
     obj_get_body (handleApiError error) "details" = Some (reply_data resp)) /\
  (response error = None -> request error = true ->
     handleApiError error =
       mkResponse 503
         (JObj [("error", JStr "Serviço indisponível");
                ("message", JStr "A API de países não respondeu")])) /\
  (response error = None -> request error = false ->
     handleApiError error =
       mkResponse 500 (JObj [("error", JStr "Erro interno no servidor")])).
Proof.
  split; [|split].
  - intros resp H. by rewrite (handleApiError_response _ _ H).
  - apply handleApiError_no_response.
  - apply handleApiError_internal.
Qed.

Lemma error_classifier_cases_witness :
  handleApiError (mkError "timeout of 5000ms exceeded" None true) =
    mkResponse 503
      (JObj [("error", JStr "Serviço indisponível");
             ("message", JStr "A API de países não respondeu")]).
Proof.
  apply (error_classifier_cases (mkError "timeout of 5000ms exceeded" None true));
    reflexivity.
Defined.

End ErrorClassifier.


(** ** Properties of the bearer guard *)

Section AuthGuard.
Import Js Http VariantB Spec.

Lemma split_one_word t : one_word t = true -> split " " t = [t].
Proof.
  induction t as [|c t IH]; simpl; [done|].
  intros [Hc Ht]%andb_true_iff.
  destruct (Ascii.eqb c _); [done|]. rewrite (IH Ht). reflexivity.
Qed.

Lemma split_bearer t :
  one_word t = true -> split " " ("Bearer " +:+ t) !! 1%nat = Some t.
Proof.
  intros Ht. cbv [String.append]. simpl.
  by rewrite (split_one_word _ Ht).
Qed.

Lemma startsWith_append s p : startsWith (p +:+ s) p = true.
Proof.
  induction p as [|a p IH]; [reflexivity|].
  cbv [String.append]. simpl. fold String.append. by rewrite Ascii.eqb_refl, IH.
Qed.

Lemma startsWith_prefix' s p :
  startsWith s p = true -> exists rest, s = p +:+ rest.
Proof.
  revert s. induction p as [|a p IH]; intros s; simpl.
  - by exists s.
  - destruct s as [|b s]; [done|].
    intros [->%Ascii.eqb_eq [rest ->]%IH]%andb_true_iff. by exists rest.
Qed.

(** Whatever the header, the guard lets the request through or answers with
    the one unauthorized response. *)
Lemma authMiddleware_cases token req :
  authMiddleware token req = Next \/
  authMiddleware token req = Replied unauthorized.
Proof.
  unfold authMiddleware. destruct (authorization req); [|by right].
  destruct (_ || _); [by right|by left].
Qed.

Lemma split_first_word r : split " " r !! 0%nat = Some (first_word r).
Proof.
  induction r as [|c r IH]; simpl; [done|].
  destruct (Ascii.eqb c " "); [done|].
  destruct (split " " r) as [|h t]; [done|]. simpl in *. congruence.
Qed.

Lemma split_after_bearer r :
  split " " ("Bearer " +:+ r) !! 1%nat = Some (first_word r).
Proof.
  cbv [String.append]. simpl. apply split_first_word.
Qed.

Lemma first_word_one_word t : one_word t = true -> first_word t = t.
Proof.
  induction t as [|c t IH]; simpl; [done|].
  intros [Hc Ht]%andb_true_iff. apply negb_true_iff in Hc.
  by rewrite Hc, (IH Ht).
Qed.

Lemma rejected_answer token req :
  rejected_credential token (authorization req) ->
  authMiddleware token req = Replied unauthorized.
Proof.
  unfold authMiddleware. inversion 1 as [|auth Hpre Heq|rest Hne Heq]; [done|..].
  - rewrite Hpre. by destruct (truthy (JStr auth)).
  - unfold second_differs. rewrite split_after_bearer.
    assert (String.eqb (first_word rest) token = false) as ->
      by (by apply String.eqb_neq).
    cbn [negb]. by rewrite orb_true_r.
Qed.

Lemma answer_rejected token req :
  authMiddleware token req <> Next ->
  rejected_credential token (authorization req).
Proof.
  unfold authMiddleware. destruct (authorization req) as [auth|];
    [|intros _; constructor].
  destruct (startsWith auth "Bearer ") eqn:Hpre;
    [|intros _; by constructor].
  apply startsWith_prefix' in Hpre as [rest ->].
  unfold second_differs. rewrite split_after_bearer.
  assert (truthy (JStr ("Bearer " +:+ rest)) = true) as -> by reflexivity.
  destruct (String.eqb_spec (first_word rest) token) as [Heq|Hne].
  - intros H. by destruct H.
  - intros _. by apply rejected_word.
Qed.

(** A header that carries the secret and more words behind it counts as a
    credential with another token, and the guard lets it through. *)
Lemma auth_mismatch_accepted_counterexample :
  invalid_credential "secrettoken123" (Some "Bearer secrettoken123 x") /\
  authMiddleware "secrettoken123"
    (mkRequest "GET" "/api/countries/peru" (Some "Bearer secrettoken123 x"))
  = Next.
Proof.
  split; [|reflexivity].
  apply (credential_mismatched "secrettoken123" "secrettoken123 x").
  discriminate.
Qed.

(** C8 (amended). The guard turns away exactly the credentials that are
    missing, that lack the [Bearer ] prefix, or whose first word behind the
    prefix is not the secret, a one-word token other than the secret among
    them; any two of these get the same answer, status 401 and the one
    unauthorized body.  What follows a space behind the token is not
    compared. *)
Theorem auth_rejections_uniform (token : string) (r1 r2 : Request) :
  (authMiddleware token r1 <> Next <->
   rejected_credential token (authorization r1)) /\
  (forall t, one_word t = true -> t <> token ->
     rejected_credential token (Some ("Bearer " +:+ t))) /\
  (rejected_credential token (authorization r1) ->
   rejected_credential token (authorization r2) ->
   authMiddleware token r1 = authMiddleware token r2 /\
   authMiddleware token r1 =
     Replied (mkResponse 401 (JObj [("error", JStr "Não autorizado")]))).
Proof.
  split; [|split].
  - split; [apply answer_rejected|].
    intros H. by rewrite (rejected_answer _ _ H).
  - intros t Hw Hne. apply rejected_word. by rewrite first_word_one_word.
  - intros H1 H2.
    by rewrite (rejected_answer _ _ H1), (rejected_answer _ _ H2).
Qed.

Lemma auth_rejections_uniform_witness :
  authMiddleware "secrettoken123" (mkRequest "GET" "/api/countries/peru" None) =
  authMiddleware "secrettoken123"
    (mkRequest "GET" "/api/countries/peru" (Some "Bearer wrong token")) /\
  authMiddleware "secrettoken123" (mkRequest "GET" "/api/countries/peru" None) =
    Replied (mkResponse 401 (JObj [("error", JStr "Não autorizado")])).
Proof.
  apply (proj2 (proj2 (auth_rejections_uniform "secrettoken123"
           (mkRequest "GET" "/api/countries/peru" None)
           (mkRequest "GET" "/api/countries/peru"
              (Some "Bearer wrong token"))))).
  - apply rejected_missing.
  - apply (rejected_word "secrettoken123" "wrong token"). discriminate.
Defined.

(** The guard reads the second word of the header only. *)
Example auth_trailing_words :
  authMiddleware "secrettoken123"
    (mkRequest "GET" "/api/countries/peru"
       (Some "Bearer secrettoken123 and more")) = Next.
Proof. reflexivity. Qed.

End AuthGuard.

(** ** Properties of the fallback fetch and of the detail endpoints *)

Section Fallback.
Import Js Http VariantB Spec.

Lemma string_app_assoc (a b c : string) : (a +:+ b) +:+ c = a +:+ b +:+ c.
Proof.
  induction a as [|x a IH]; [reflexivity|].
  cbv [String.append]. fold String.append. by rewrite IH.
Qed.

Lemma status_is_true error code :
  status_is error code = true <->
  exists resp, response error = Some resp /\ reply_status resp = code.
Proof.
  unfold status_is. destruct (response error) as [resp|].
  - rewrite Z.eqb_eq. split.
    + intros H. by exists resp.
    + intros (resp' & [= <-] & H). exact H.
  - split; [discriminate|]. by intros (resp & [=] & _).
Qed.

Lemma client_miss_decide error :
  status_is error 400 || status_is error 404 = true <-> client_miss error.
Proof.
  rewrite orb_true_iff, !status_is_true. unfold client_miss. split.
  - intros [(resp & H & Hs)|(resp & H & Hs)]; exists resp; auto.
  - intros (resp & H & [Hs|Hs]); [left|right]; by exists resp.
Qed.

(** The full-text URL is the relaxed one with [?fullText=true] behind. *)
Lemma full_text_url_relaxed name :
  full_text_url name = relaxed_url name +:+ "?fullText=true".
Proof.
  unfold full_text_url, relaxed_url.
  by rewrite !string_app_assoc.
Qed.

(** C1. For every name the first request is the full-text one.  When it
    succeeds its data is the result; when it is rejected with status 400 or
    404 exactly one more request goes out, the relaxed one, and its outcome
    is the result; when it is rejected in any other way the rejection is the
    result and no second request goes out. *)
Theorem fetch_fallback (up : Upstream) (name : string) (log : list string) :
  (forall data, up log (full_text_url name) = Ok data ->
     fetchByName up name log = (Ok data, log ++ [full_text_url name])) /\
  (forall error,
     up log (full_text_url name) = Thrown error -> client_miss error ->
     fetchByName up name log =
       (up (log ++ [full_text_url name]) (relaxed_url name),
        log ++ [full_text_url name; relaxed_url name])) /\
  (forall error,
     up log (full_text_url name) = Thrown error -> ~ client_miss error ->
     fetchByName up name log = (Thrown error, log ++ [full_text_url name])).
Proof.
  unfold fetchByName, axios_get. cbn zeta. repeat split.
  - by intros data ->.
  - intros error -> Hmiss%client_miss_decide. rewrite Hmiss.
    by rewrite <- app_assoc.
  - intros error -> Hmiss. destruct (_ || _) eqn:E; [|done].
    by apply client_miss_decide in E.
Qed.

Lemma fetch_fallback_witness :
  fetchByName congo_upstream "congo" [] =
    (Ok (JArr [JObj [("cca2", JStr "CG")]]),
     ["https://restcountries.com/v3.1/name/congo?fullText=true";
      "https://restcountries.com/v3.1/name/congo"]).
Proof.
  apply (proj1 (proj2 (fetch_fallback congo_upstream "congo" []))
           (mkError "Request failed with status code 400"
              (Some (mkReply 400 JNull)) true)).
  - reflexivity.
  - exists (mkReply 400 JNull). split; [reflexivity | left; reflexivity].
Defined.

(** A rejection with status 500 is not retried. *)
Example fetch_no_retry_on_500 :
  fetchByName
    (fun _ _ => Thrown (mkError "Request failed with status code 500"
                          (Some (mkReply 500 JNull)) true)) "congo" [] =
    (Thrown (mkError "Request failed with status code 500"
               (Some (mkReply 500 JNull)) true),
     ["https://restcountries.com/v3.1/name/congo?fullText=true"]).
Proof. reflexivity. Qed.

(** C7. When the fetch, fallback included, succeeds with an empty result
    set, the detail endpoint of variant B answers 404 with the not-found
    body of its own; a failure of the fetch, whatever the provider, the name
    and the error, is answered by the catch with another body: the
    not-found body has a [message] and no [details], the answer to a
    failure has [details] and no [message]. *)
Theorem empty_result_not_found
    (up : Upstream) (name : string) (log log' : list string) :
  fetchByName up name log = (Ok (JArr []), log') ->
  get_country up name log = (not_found, log') /\
  status (get_country up name log).1 = 404 /\
  obj_get_body (get_country up name log).1 "message" =
    Some (JStr "Nenhum país corresponde ao termo pesquisado") /\
  obj_get_body (get_country up name log).1 "details" = None /\
  forall (up2 : Upstream) (name2 : string) (log2 log2' : list string)
         (error : JsError),
    fetchByName up2 name2 log2 = (Thrown error, log2') ->
    get_country up2 name2 log2 = (failed error, log2') /\
    body (get_country up2 name2 log2).1 <> body (get_country up name log).1 /\
    obj_get_body (get_country up2 name2 log2).1 "message" = None /\
    obj_get_body (get_country up2 name2 log2).1 "details" =
      Some (JStr (message error)).
Proof.
  intros H.
  assert (Hnf : get_country up name log = (not_found, log'))
    by (unfold get_country; by rewrite H).
  rewrite Hnf. split; [done|]. split; [done|]. split; [done|].
  split; [done|].
  intros up2 name2 log2 log2' error H2.
  assert (Hf : get_country up2 name2 log2 = (failed error, log2'))
    by (unfold get_country; by rewrite H2).
  by rewrite Hf.
Qed.

Lemma empty_result_not_found_witness :
  get_country empty_upstream "atlantis" [] =
    (not_found, [full_text_url "atlantis"]).
Proof.
  apply (empty_result_not_found empty_upstream "atlantis" []
           [full_text_url "atlantis"]).
  reflexivity.
Defined.

(** An empty result of the relaxed request is a not-found as well. *)
Example empty_fallback_not_found :
  get_country atlantis_upstream "atlantis" [] =
    (not_found, [full_text_url "atlantis"; relaxed_url "atlantis"]).
Proof. reflexivity. Qed.

End Fallback.

(** ** The detail endpoint of variant A on an empty result *)

Section EmptyResult.
Import Js Http Spec.

(** With a field list, an empty result ends in the classifier's 500. *)
Lemma variantA_empty_with_fields_counterexample :
  VariantA.get_country empty_upstream "atlantis" (Some "name") [] =
    (mkResponse 500 (JObj [("error", JStr "Erro interno no servidor")]),
     ["https://restcountries.com/v3.1/name/atlantis"]) /\
  status (fst (VariantA.get_country empty_upstream "atlantis" (Some "name") []))
    <> 200.
Proof. split; [reflexivity | discriminate]. Qed.

Lemma select_fields_undefined fieldList acc :
  fieldList <> [] ->
  VariantA.select_fields JUndefined fieldList acc =
    Thrown (type_error "Cannot read properties of undefined").
Proof. destruct fieldList; [done|reflexivity]. Qed.

Lemma split_not_nil sep s : split sep s <> [].
Proof.
  destruct s as [|c s]; simpl; [done|].
  destruct (Ascii.eqb c sep); [done|]. by destruct (split sep s).
Qed.

(** C10 (amended). When the provider answers the detail request of variant A
    with an empty array, the handler reads element 0 of it and never answers
    404: without a field list (none, or an empty one) it answers 200 with no
    body; with a field list it answers with the classifier's 500.  The
    handler of variant B answers the same provider with its 404. *)
Theorem variantA_empty_result
    (up : Upstream) (name : string) (fields : option string)
    (log : list string) (url : string) :
  url = COUNTRIES_API +:+ "/name/" +:+ name ->
  up log url = Ok (JArr []) ->
  (truthy (JStr (default "" fields)) = false ->
     VariantA.get_country up name fields log =
       (mkResponse 200 JUndefined, log ++ [url])) /\
  (truthy (JStr (default "" fields)) = true ->
     VariantA.get_country up name fields log =
       (mkResponse 500 (JObj [("error", JStr "Erro interno no servidor")]),
        log ++ [url])) /\
  status (fst (VariantA.get_country up name fields log)) <> 404 /\
  (up log (VariantB.full_text_url name) = Ok (JArr []) ->
     status (fst (VariantB.get_country up name log)) = 404).
Proof.
  intros -> Hup. set (url := COUNTRIES_API +:+ "/name/" +:+ name) in *.
  assert (Hno : truthy (JStr (default "" fields)) = false ->
     VariantA.get_country up name fields log =
       (mkResponse 200 JUndefined, log ++ [url])).
  { intros Hf. unfold VariantA.get_country, axios_get. fold url. rewrite Hup.
    cbn. unfold VariantA.filter_fields. by rewrite Hf. }
  assert (Hyes : truthy (JStr (default "" fields)) = true ->
     VariantA.get_country up name fields log =
       (mkResponse 500 (JObj [("error", JStr "Erro interno no servidor")]),
        log ++ [url])).
  { intros Hf. unfold VariantA.get_country, axios_get. fold url. rewrite Hup.
    cbn. unfold VariantA.filter_fields. rewrite Hf.
    rewrite select_fields_undefined by apply split_not_nil. done. }
  repeat split; [exact Hno | exact Hyes | |].
  - destruct (truthy (JStr (default "" fields))) eqn:E.
    + by rewrite Hyes.
    + by rewrite Hno.
  - intros HB. unfold VariantB.get_country, VariantB.fetchByName, axios_get.
    by rewrite HB.
Qed.

Lemma variantA_empty_result_witness :
  VariantA.get_country empty_upstream "atlantis" None [] =
    (mkResponse 200 JUndefined,
     ["https://restcountries.com/v3.1/name/atlantis"]).
Proof.
  apply (variantA_empty_result empty_upstream "atlantis" None []
           "https://restcountries.com/v3.1/name/atlantis"); reflexivity.
Defined.

End EmptyResult.

(** ** The cache key *)

Section CacheKey.
Import Js Http VariantA Spec.
#[local] Existing Instance sample_engine.

(** Two requests that differ in the order of their parameters only are the
    same logical request and get two keys. *)
Lemma cache_key_order_counterexample :
  same_logical_request page_then_limit limit_then_page /\
  cache_key page_then_limit <> cache_key limit_then_page.
Proof.
  split; [|discriminate].
  split; [reflexivity|]. split; [reflexivity|].
  apply perm_swap.
Qed.

(** The case of a parameter tells two keys apart as well. *)
Example cache_key_case :
  same_logical_request
    (mkRequest "GET" "/api/countries?search=Peru" None)
    (mkRequest "GET" "/api/countries?search=peru" None) /\
  cache_key (mkRequest "GET" "/api/countries?search=Peru" None) <>
  cache_key (mkRequest "GET" "/api/countries?search=peru" None).
Proof.
  split; [|discriminate]. split; [reflexivity|]. split; [reflexivity|].
  reflexivity.
Qed.

(** C5 (amended). The key is a function of the original URL alone: two
    requests share a cache entry exactly when their original URLs are the
    same string, whatever their methods; the URL is taken as it came, with
    the order and the case of its parameters. *)
Theorem cache_key_is_original_url (r1 r2 : Request) :
  cache_key r1 = "__express__" +:+ originalUrl r1 /\
  (cache_key r1 = cache_key r2 <-> originalUrl r1 = originalUrl r2).
Proof.
  split; [reflexivity|]. unfold cache_key. split.
  - apply (inj (String.app "__express__")).
  - by intros ->.
Qed.

End CacheKey.

(** ** Field selection on the detail endpoint of variant A *)

Section FieldSelection.
Import Js Http VariantA Spec.

Lemma obj_get_set o k v k' :
  obj_get (obj_set o k v) k' = if String.eqb k k' then Some v else obj_get o k'.
Proof.
  induction o as [|[k0 v0] o IH]; simpl.
  - done.
  - destruct (String.eqb_spec k0 k) as [->|Hne]; simpl.
    + by destruct (String.eqb k k').
    + destruct (String.eqb_spec k0 k') as [->|Hne'].
      * by rewrite (proj2 (String.eqb_neq k k')).
      * exact IH.
Qed.

Lemma select_field_obj o acc field :
  exists acc',
    select_field (JObj o) acc field = Ok acc' /\
    forall k, obj_get acc' k =
      if selects o [field] k then obj_get o k else obj_get acc k.
Proof.
  unfold select_field, selects. cbn [nullish prop existsb].
  destruct (truthy (default JUndefined (obj_get o field))) eqn:Ht.
  - destruct (String.eqb_spec field "__proto__") as [->|Hp].
    + exists acc. split; [done|]. intros k.
      by destruct (String.eqb k "__proto__").
    + eexists. split; [done|]. intros k. rewrite obj_get_set.
      rewrite (String.eqb_sym field k).
      destruct (String.eqb_spec k field) as [->|]; [|done].
      rewrite (proj2 (String.eqb_neq _ _) Hp), Ht. cbn.
      destruct (obj_get o field); [done|]. by simpl in Ht.
  - exists acc. split; [done|]. intros k.
    destruct (String.eqb_spec k field) as [->|]; [|done].
    by rewrite Ht, andb_false_r.
Qed.

Lemma select_fields_obj o fieldList acc :
  exists r,
    select_fields (JObj o) fieldList acc = Ok r /\
    forall k, obj_get r k =
      if selects o fieldList k then obj_get o k else obj_get acc k.
Proof.
  revert acc. induction fieldList as [|field rest IH]; intros acc.
  - by exists acc.
  - destruct (select_field_obj o acc field) as (acc' & Hacc & Hget).
    destruct (IH acc') as (r & Hr & Hrget).
    exists r. split.
    + simpl. by rewrite Hacc.
    + intros k. rewrite Hrget, Hget. unfold selects. simpl.
      rewrite orb_false_r.
      destruct (String.eqb k field), (existsb (String.eqb k) rest),
        (negb (String.eqb k "__proto__")),
        (truthy (default JUndefined (obj_get o k))); done.
Qed.

Lemma selects_true o fieldList k :
  selects o fieldList k = true <->
  k ∈ fieldList /\ k <> "__proto__" /\
  exists v, obj_get o k = Some v /\ truthy v = true.
Proof.
  unfold selects. rewrite !andb_true_iff, negb_true_iff, String.eqb_neq.
  rewrite existsb_exists. split.
  - intros [[(x & Hin & ->%String.eqb_eq) Hp] Ht].
    split; [by apply list_elem_of_In|]. split; [done|].
    destruct (obj_get o x) as [v|]; [by exists v | done].
  - intros (Hin & Hp & v & Hv & Ht). rewrite Hv. split; [split|]; try done.
    exists k. split; [by apply list_elem_of_In | apply String.eqb_refl].
Qed.

(** A requested field that is present with the value [false] is left out. *)
Lemma field_selection_falsy_counterexample :
  obj_get [("name", JStr "Peru"); ("landlocked", JBool false)] "landlocked"
    = Some (JBool false) /\
  "landlocked" ∈ split "," "name,landlocked" /\
  filter_fields (Some "name,landlocked")
    (JObj [("name", JStr "Peru"); ("landlocked", JBool false)])
    = Ok (JObj [("name", JStr "Peru")]) /\
  obj_get [("name", JStr "Peru")] "landlocked" = None.
Proof.
  split; [reflexivity|]. split; [|split; reflexivity].
  apply list_elem_of_In. simpl. auto.
Qed.

(** C2 (amended). For every record that is an object and every non-empty
    field list, the selection succeeds and returns the mapping that holds
    exactly the requested names, other than [__proto__], whose value on the
    record is truthy, each with the record's value; a name that is unknown,
    or whose value is falsy, is left out without an error, and the handler
    answers 200 with that mapping.  Without a field list, or with an empty
    one, the record is returned whole. *)
Theorem field_selection (o : list (string * JsVal)) (fields : string) :
  fields <> "" ->
  exists r,
    filter_fields (Some fields) (JObj o) = Ok (JObj r) /\
    (forall k v,
       obj_get r k = Some v <->
       k ∈ split "," fields /\ k <> "__proto__" /\
       obj_get o k = Some v /\ truthy v = true) /\
    (forall up name log rest,
       up log (COUNTRIES_API +:+ "/name/" +:+ name) = Ok (JArr (JObj o :: rest)) ->
       fst (get_country up name (Some fields) log) = mkResponse 200 (JObj r)) /\
    filter_fields None (JObj o) = Ok (JObj o) /\
    filter_fields (Some "") (JObj o) = Ok (JObj o).
Proof.
  intros Hne.
  destruct (select_fields_obj o (split "," fields) []) as (r & Hr & Hget).
  assert (Hf : filter_fields (Some fields) (JObj o) = Ok (JObj r)).
  { unfold filter_fields. simpl.
    rewrite (proj2 (String.eqb_neq fields "") Hne). simpl. by rewrite Hr. }
  exists r. split; [exact Hf|]. split; [|split; [|done]].
  - intros k v. rewrite Hget.
    destruct (selects o (split "," fields) k) eqn:E.
    + apply selects_true in E as (Hin & Hp & v' & Hv & Ht). rewrite Hv. split.
      * intros [= <-]. done.
      * by intros (_ & _ & ? & _).
    + split; [done|]. intros (Hin & Hp & Hv & Ht).
      assert (selects o (split "," fields) k = true) as E'
        by (apply selects_true; eauto).
      congruence.
  - intros up name log rest Hup. unfold get_country, axios_get.
    rewrite Hup. cbn [and_then first_of nullish]. 
    change (prop (JArr (JObj o :: rest)) "0") with (JObj o).
    by rewrite Hf.
Qed.

Lemma field_selection_witness :
  exists r,
    filter_fields (Some "name,capital,motto")
      (JObj [("name", JStr "Peru"); ("capital", JStr "Lima");
             ("area", JNum 1285216)]) = Ok (JObj r) /\
    obj_get r "capital" = Some (JStr "Lima") /\
    obj_get r "area" = None /\
    obj_get r "motto" = None.
Proof.
  destruct (field_selection
              [("name", JStr "Peru"); ("capital", JStr "Lima");
               ("area", JNum 1285216)] "name,capital,motto")
    as (r & Hr & Hget & _); [discriminate|].
  exists r. split; [exact Hr|].
  vm_compute in Hr. injection Hr as <-. repeat split; reflexivity.
Defined.

End FieldSelection.

(** ** Pagination of the listing *)

Section Pagination.
Import Js Http VariantA Spec.
Context {E : Engine}.

Lemma round_double_small z : Z.abs z < 2 ^ 53 -> round_double z = Finite z.
Proof.
  intros H. unfold round_double.
  destruct (Z.abs z <? 2 ^ 53) eqn:Hz; [done|]. apply Z.ltb_ge in Hz. lia.
Qed.

Lemma round_double_big z :
  2 ^ 53 <= z ->
  round_double z = PosInfinity \/
  exists w, round_double z = Finite w /\ 2 ^ 53 <= w.
Proof.
  intros H. unfold round_double.
  assert (Ha : Z.abs z = z) by lia. rewrite Ha.
  destruct (z <? 2 ^ 53) eqn:Hz; [apply Z.ltb_lt in Hz; lia|].
  assert (Hneg : (z <? 0) = false) by (apply Z.ltb_ge; lia). rewrite Hneg.
  set (e := Z.log2 z - 52).
  assert (He : 1 <= e).
  { unfold e. pose proof (Z.log2_le_mono _ _ H) as Hl.
    rewrite Z.log2_pow2 in Hl by lia. lia. }
  assert (Hpe : 2 <= 2 ^ e).
  { change 2 with (2 ^ 1) at 1. apply Z.pow_le_mono_r; lia. }
  assert (Hq : 2 ^ 52 <= z / 2 ^ e).
  { apply Z.div_le_lower_bound; [lia|].
    rewrite <- Z.pow_add_r by lia.
    replace (e + 52) with (Z.log2 z) by (unfold e; lia).
    apply Z.log2_spec. lia. }
  set (q := z / 2 ^ e) in *.
  set (q' := if z mod 2 ^ e <? 2 ^ (e - 1) then q
             else if 2 ^ (e - 1) <? z mod 2 ^ e then q + 1
             else if Z.even q then q else q + 1).
  assert (Hq' : q <= q').
  { unfold q'. destruct (z mod 2 ^ e <? 2 ^ (e - 1)); [lia|].
    destruct (2 ^ (e - 1) <? z mod 2 ^ e); [lia|].
    destruct (Z.even q); lia. }
  destruct (2 ^ 1024 <=? q' * 2 ^ e); [by left|].
  right. eexists. split; [done|].
  change (2 ^ 53) with (2 ^ 52 * 2). nia.
Qed.

Lemma tracks_round v : 0 <= v -> tracks (2 ^ 53) v (round_double v).
Proof.
  intros Hv. destruct (Z_lt_le_dec v (2 ^ 53)) as [Hs|Hb].
  - left. apply round_double_small. lia.
  - right. split; [done|]. apply (round_double_big v Hb).
Qed.

Lemma tracks_weaken T T' v d : T' <= T -> tracks T v d -> tracks T' v d.
Proof.
  intros HT [->|[Hv [->|(w & -> & Hw)]]]; [by left|right..].
  - split; [lia|by left].
  - split; [lia|]. right. exists w. split; [done|lia].
Qed.

Lemma tracks_sub1 v d :
  tracks (2 ^ 53) v d -> 1 <= v ->
  tracks (2 ^ 53 - 1) (v - 1) (num_sub d (Finite 1)).
Proof.
  intros [->|[Hv [->|(w & -> & Hw)]]] H1.
  - unfold num_sub, num_neg, num_add.
    replace (v + - (1)) with (v - 1) by lia.
    apply (tracks_weaken (2 ^ 53)); [lia|]. apply tracks_round. lia.
  - right. split; [lia|by left].
  - unfold num_sub, num_neg, num_add.
    replace (w + - (1)) with (w - 1) by lia.
    right. split; [lia|].
    destruct (Z_lt_le_dec (w - 1) (2 ^ 53)) as [Hs|Hb].
    + right. exists (w - 1). split; [|lia].
      apply round_double_small. lia.
    + destruct (round_double_big _ Hb) as [->|(w' & -> & Hw')];
        [by left|]. right. exists w'. split; [done|lia].
Qed.

Lemma tracks_mul T v1 d1 v2 d2 :
  0 < T -> T <= 2 ^ 53 ->
  tracks T v1 d1 -> tracks (2 ^ 53) v2 d2 ->
  0 <= v1 -> 1 <= v2 -> d2 <> PosInfinity ->
  tracks T (v1 * v2) (num_mul d1 d2).
Proof.
  intros HT HT' H1 H2 Hv1 Hv2 Hfin.
  assert (Hbig : forall x, T <= x ->
            round_double x = PosInfinity \/
            exists w, round_double x = Finite w /\ T <= w).
  { intros x Hx. destruct (Z_lt_le_dec x (2 ^ 53)) as [Hs|Hb].
    - right. exists x. split; [|done]. apply round_double_small. lia.
    - destruct (round_double_big _ Hb) as [->|(w & -> & Hw)];
        [by left|]. right. exists w. split; [done|lia]. }
  assert (H2' : exists x, d2 = Finite x /\ 1 <= x /\ (x = v2 \/ 2 ^ 53 <= x)).
  { destruct H2 as [->|[Hv [->|(w & -> & Hw)]]]; [|done|].
    - exists v2. auto.
    - exists w. split; [done|]. split; [lia|]. by right. }
  destruct H2' as (x & -> & Hx1 & Hx).
  destruct H1 as [->|[Hv [->|(w & -> & Hw)]]].
  - simpl. destruct Hx as [->|Hx].
    + apply (tracks_weaken (2 ^ 53)); [done|]. apply tracks_round. nia.
    + destruct (Z.eq_dec v1 0) as [->|Hn].
      * left. by rewrite !Z.mul_0_l.
      * right.
        assert (2 ^ 53 <= v2)
          by (destruct H2 as [[= ->]|[? _]]; [lia|done]).
        split; [nia|]. apply Hbig. nia.
  - right. split; [nia|]. left. simpl.
    destruct x; simpl; try done; lia.
  - right. split; [nia|]. simpl. apply Hbig. nia.
Qed.

Lemma tracks_index T v d len :
  tracks T v d -> 0 <= v -> 0 <= len -> len <= T ->
  rel_index len d = Z.min v len.
Proof.
  intros [->|[Hv [->|(w & -> & Hw)]]] H0 Hl HT; simpl.
  - destruct (v <? 0) eqn:Hn; [apply Z.ltb_lt in Hn; lia|done].
  - lia.
  - destruct (w <? 0) eqn:Hn; [apply Z.ltb_lt in Hn; lia|lia].
Qed.

(** A window of [limit] places from [a] on, clamped to the list, is [take]
    after [drop]. *)
Lemma window_take_drop {A} (l : list A) (a limit : Z) :
  0 <= a -> 0 <= limit ->
  take (Z.to_nat (Z.min (a + limit) (Z.of_nat (length l))
                    - Z.min a (Z.of_nat (length l))))
       (drop (Z.to_nat (Z.min a (Z.of_nat (length l)))) l) =
  take (Z.to_nat limit) (drop (Z.to_nat a) l).
Proof.
  intros Ha Hb.
  destruct (Z_le_gt_dec (Z.of_nat (length l)) a) as [Hlen|Hlen].
  - rewrite !(drop_ge l) by lia. by rewrite !take_nil.
  - rewrite (Z.min_l a) by lia.
    destruct (Z_le_gt_dec (a + limit) (Z.of_nat (length l))) as [Hb'|Hb'].
    + rewrite (Z.min_l (a + limit)) by lia. f_equal. lia.
    + rewrite (Z.min_r (a + limit)) by lia.
      rewrite !take_ge; [done|rewrite length_drop; lia..].
Qed.

(** The slice of a page: for a page and a limit of at least 1, a limit that
    converts to a finite number and a list shorter than [2^32], the doubles
    of the handler cut the list where the integers do. *)
Lemma page_slice (l : list JsVal) (page limit : Z) :
  1 <= page -> 1 <= limit -> to_number limit <> PosInfinity ->
  Z.of_nat (length l) < 2 ^ 32 ->
  slice l (num_mul (num_sub (to_number page) (Finite 1)) (to_number limit))
          (num_mul (to_number page) (to_number limit)) =
  take (Z.to_nat limit) (drop (Z.to_nat ((page - 1) * limit)) l).
Proof.
  intros Hp Hl Hfin Hlen. unfold slice, to_number in *.
  pose proof (tracks_round page ltac:(lia)) as Tp.
  pose proof (tracks_round limit ltac:(lia)) as Tl.
  pose proof (tracks_sub1 _ _ Tp Hp) as Tp1.
  pose proof (tracks_mul (2 ^ 53 - 1) _ _ _ _ ltac:(lia) ltac:(lia)
                Tp1 Tl ltac:(lia) Hl Hfin) as Ts.
  pose proof (tracks_mul (2 ^ 53) _ _ _ _ ltac:(lia) ltac:(lia)
                Tp Tl ltac:(lia) Hl Hfin) as Te.
  assert (H32 : 2 ^ 32 <= 2 ^ 53 - 1) by (vm_compute; discriminate).
  rewrite (tracks_index _ _ _ _ Ts) by nia.
  rewrite (tracks_index _ _ _ _ Te) by nia.
  replace (page * limit) with ((page - 1) * limit + limit) by lia.
  apply window_take_drop; nia.
Qed.

(** The number of pages, under the same conditions, is the ceiling of the
    length by the limit. *)
Lemma ceil_div_positive (n : nat) (limit : Z) :
  1 <= limit -> to_number limit <> PosInfinity ->
  Z.of_nat n < 2 ^ 32 ->
  exists k, ceil_div n (to_number limit) = Finite k /\
    (k - 1) * limit < Z.of_nat n <= k * limit.
Proof.
  intros Hd Hfin Hn. unfold to_number in *.
  assert (Hexact : forall d, 1 <= d ->
    (- (- Z.of_nat n / d) - 1) * d < Z.of_nat n <= - (- Z.of_nat n / d) * d).
  { intros d H1.
    pose proof (Z.mul_div_le (- Z.of_nat n) d ltac:(lia)).
    pose proof (Z.mul_succ_div_gt (- Z.of_nat n) d ltac:(lia)). nia. }
  destruct (tracks_round limit ltac:(lia)) as [Hr|[Hb [Hr|(w & Hr & Hw)]]];
    [|done|]; rewrite Hr; unfold ceil_div.
  - destruct (limit =? 0) eqn:E0; [apply Z.eqb_eq in E0; lia|].
    eexists. split; [done|]. by apply Hexact.
  - destruct (w =? 0) eqn:E0; [apply Z.eqb_eq in E0; lia|].
    eexists. split; [done|].
    assert (H32 : 2 ^ 32 < 2 ^ 53) by (vm_compute; reflexivity).
    destruct (Z.eq_dec (Z.of_nat n) 0) as [Hz|Hz].
    + rewrite Hz. simpl. rewrite Z.div_0_l by lia. lia.
    + assert (- Z.of_nat n / w = -1) as ->.
      { symmetry. apply (Z.div_unique _ _ _ (w - Z.of_nat n)); lia. }
      lia.
Qed.


End Pagination.

Section PaginationExamples.
Import Js Http VariantA Spec.
#[local] Existing Instance sample_engine.



(** Page 1 with 20 records a page when the query names neither. *)
Example paginate_defaults :
  list_page (mkQuery None None None) (JArr [JNum 1; JNum 2; JNum 3]) =
    Ok (mkPage 3 (Finite 1) (Finite 1) (JArr [JNum 1; JNum 2; JNum 3])).
Proof. reflexivity. Qed.

(** A limit of zero gives an empty page and no finite number of pages. *)
Example paginate_limit_zero :
  list_page (mkQuery (Some 1) (Some 0) None) (JArr [JNum 1; JNum 2]) =
    Ok (mkPage 2 (Finite 1) PosInfinity (JArr [])).
Proof. reflexivity. Qed.

(** A page beyond [2^53] is echoed as the double next to it. *)
Example paginate_page_rounded :
  list_page (mkQuery (Some 9007199254740993) (Some 1) None)
    (JArr [JNum 1; JNum 2]) =
    Ok (mkPage 2 (Finite 9007199254740992) (Finite 2) (JArr [])).
Proof. by vm_compute. Qed.

End PaginationExamples.

(** ** The search filter of the listing *)

Section SearchFilter.
Import Js Http VariantA Spec.
Context {E : Engine}.

Lemma startsWith_prefix s p :
  startsWith s p = true <-> exists rest, s = p +:+ rest.
Proof.
  revert s. induction p as [|a p IH]; intros s; simpl.
  - split; [by exists s | done].
  - destruct s as [|b s].
    + split; [done | by intros [rest [=]]].
    + rewrite andb_true_iff, Ascii.eqb_eq, IH. split.
      * intros [-> [rest ->]]. by exists rest.
      * intros [rest [= -> ->]]. split; [done | by exists rest].
Qed.

Lemma includes_substring s sub :
  includes s sub = true <-> exists pre post, s = pre +:+ sub +:+ post.
Proof.
  induction s as [|c s IH].
  - simpl. rewrite orb_false_r, startsWith_prefix. split.
    + intros [rest ->]. by exists "", rest.
    + intros ([|x pre] & post & H); [by exists post | discriminate].
  - cbn [includes]. rewrite orb_true_iff, startsWith_prefix, IH. split.
    + intros [[rest ->]|(pre & post & ->)].
      * by exists "", rest.
      * by exists (String c pre), post.
    + intros ([|x pre] & post & H).
      * left. by exists post.
      * right. injection H as -> ->. by exists pre, post.
Qed.

(** *** Texts of Latin-1 *)

Lemma latin1_points_bound_len k s l :
  (String.length s <= k)%nat ->
  latin1_points s = Some l -> Forall (fun n => (n < 256)%N) l.
Proof.
  revert s l. induction k as [|k IH]; intros s l Hk.
  { destruct s; [|simpl in Hk; lia]. by intros [= <-]. }
  destruct s as [|c s']; simpl; [by intros [= <-]|]. simpl in Hk.
  destruct (N_of_ascii c <? 128)%N eqn:E1.
  - destruct (latin1_points s') as [l'|] eqn:E'; [|done]. simpl.
    intros [= <-]. constructor.
    + apply N.ltb_lt in E1. lia.
    + apply (IH s'); [lia|done].
  - destruct ((N_of_ascii c =? 194)%N || (N_of_ascii c =? 195)%N) eqn:E2;
      [|done].
    destruct s' as [|d s'']; [done|]. simpl in Hk.
    destruct ((128 <=? N_of_ascii d)%N && (N_of_ascii d <? 192)%N) eqn:E3;
      [|done].
    destruct (latin1_points s'') as [l'|] eqn:E'; [|done]. simpl.
    intros [= <-]. constructor.
    + apply andb_true_iff in E3 as [?%N.leb_le ?%N.ltb_lt].
      apply orb_true_iff in E2 as [?%N.eqb_eq|?%N.eqb_eq]; lia.
    + apply (IH s''); [lia|done].
Qed.

Lemma latin1_points_bound s l :
  latin1_points s = Some l -> Forall (fun n => (n < 256)%N) l.
Proof. by apply (latin1_points_bound_len (String.length s)). Qed.

Lemma lower_point_bound n : (n < 256)%N -> (lower_point n < 256)%N.
Proof.
  intros H. unfold lower_point.
  destruct (_ || _)%N eqn:Eu; [|done].
  apply orb_true_iff in Eu as [Eu|Eu].
  - apply andb_true_iff in Eu as [_ ?%N.leb_le]. lia.
  - apply andb_true_iff in Eu as [Eu _].
    apply andb_true_iff in Eu as [_ ?%N.leb_le]. lia.
Qed.

Lemma toLowerCase_latin1 s l :
  latin1_points s = Some l ->
  toLowerCase s = points_text (map lower_point l).
Proof. intros H. unfold toLowerCase. by rewrite H. Qed.

(** The bytes of a point: one below 128, or a lead byte from 192 on and a
    byte between 128 and 191. *)
Lemma point_bytes n rest :
  (n < 256)%N ->
  points_text (n :: rest) =
    (if (n <? 128)%N then String (ascii_of_N n) (points_text rest)
     else String (ascii_of_N (192 + n / 64))
            (String (ascii_of_N (128 + n mod 64)) (points_text rest))) /\
  ((128 <= n)%N ->
   (192 <= N_of_ascii (ascii_of_N (192 + n / 64)))%N /\
   (128 <= N_of_ascii (ascii_of_N (128 + n mod 64)) < 192)%N).
Proof.
  intros Hn. split; [done|]. intros Hbig.
  assert (n / 64 < 4)%N by (apply N.Div0.div_lt_upper_bound; lia).
  assert (n mod 64 < 64)%N by (apply N.mod_lt; lia).
  rewrite !N_ascii_embedding by lia.
  split; [|split]; [apply N.le_add_r..|lia].
Qed.

Lemma point_of_bytes n m :
  (n < 256)%N -> (m < 256)%N ->
  (n / 64 = m / 64)%N -> (n mod 64 = m mod 64)%N -> n = m.
Proof.
  intros _ _ Hd Hm.
  rewrite (N.div_mod' n 64), (N.div_mod' m 64). by rewrite Hd, Hm.
Qed.

Lemma startsWith_points a b :
  Forall (fun n => (n < 256)%N) a -> Forall (fun n => (n < 256)%N) b ->
  startsWith (points_text a) (points_text b) = true <->
  exists r, a = b ++ r.
Proof.
  intros Ha Hb. revert a Ha.
  induction Hb as [|d b Hd Hb IH]; intros a Ha.
  - simpl. split; [by exists a | done].
  - destruct Ha as [|c a Hc Ha].
    { split; [|by intros [r [=]]].
      simpl. by destruct (d <? 128)%N. }
    assert (c / 64 < 4)%N by (apply N.Div0.div_lt_upper_bound; lia).
    assert (d / 64 < 4)%N by (apply N.Div0.div_lt_upper_bound; lia).
    assert (c mod 64 < 64)%N by (apply N.mod_lt; lia).
    assert (d mod 64 < 64)%N by (apply N.mod_lt; lia).
    assert (192 <= 192 + c / 64)%N by apply N.le_add_r.
    assert (192 <= 192 + d / 64)%N by apply N.le_add_r.
    assert (128 <= 128 + c mod 64)%N by apply N.le_add_r.
    assert (128 <= 128 + d mod 64)%N by apply N.le_add_r.
    simpl.
    destruct (N.ltb_spec c 128) as [Ec|Ec], (N.ltb_spec d 128) as [Ed|Ed];
      simpl; rewrite ?andb_true_iff, ?Ascii.eqb_eq.
    + rewrite (IH a Ha). split.
      * intros [Heq [r ->]]. exists r. f_equal.
        apply (f_equal N_of_ascii) in Heq.
        rewrite !N_ascii_embedding in Heq by lia. done.
      * intros [r [= -> ->]]. split; [done|by exists r].
    + split.
      * intros [Heq _]. apply (f_equal N_of_ascii) in Heq.
        rewrite !N_ascii_embedding in Heq by lia. lia.
      * intros [r [= -> _]]. lia.
    + split.
      * intros [Heq _]. apply (f_equal N_of_ascii) in Heq.
        rewrite !N_ascii_embedding in Heq by lia. lia.
      * intros [r [= -> _]]. lia.
    + rewrite (IH a Ha). split.
      * intros [Hx [Hy [r ->]]]. exists r. f_equal.
        apply (f_equal N_of_ascii) in Hx, Hy.
        rewrite !N_ascii_embedding in Hx, Hy by lia.
        symmetry. apply point_of_bytes; [done|done|lia|lia].
      * intros [r [= -> ->]]. split; [done|]. split; [done|by exists r].
Qed.

Lemma includes_points a b :
  Forall (fun n => (n < 256)%N) a -> Forall (fun n => (n < 256)%N) b ->
  includes (points_text a) (points_text b) = true <->
  exists p r, a = p ++ b ++ r.
Proof.
  intros Ha Hb. induction Ha as [|c a Hc Ha IH].
  - simpl. rewrite orb_false_r.
    change EmptyString with (points_text []).
    rewrite (startsWith_points [] b) by (done || constructor). split.
    + intros [r Hr]. by exists [], r.
    + intros (p & r & H). symmetry in H.
      apply app_eq_nil in H as [-> H]. by exists r.
  - assert (Hstart :
      includes (points_text (c :: a)) (points_text b) =
      startsWith (points_text (c :: a)) (points_text b)
      || includes (points_text a) (points_text b)).
    { destruct (point_bytes c a Hc) as [Hbytes Hrange]. rewrite Hbytes.
      destruct (c <? 128)%N eqn:Ec; [done|]. apply N.ltb_ge in Ec.
      cbn [includes]. f_equal.
      destruct b as [|d b]; [by destruct (points_text a)|].
      replace (startsWith _ (points_text (d :: b))) with false; [done|].
      symmetry. apply Forall_cons in Hb as [Hd Hb].
      destruct (Hrange Ec) as [_ Hcont].
      destruct (point_bytes d b Hd) as [-> Hdr].
      destruct (d <? 128)%N eqn:Ed; simpl; apply andb_false_iff; left;
        apply Ascii.eqb_neq; intros Heq;
        apply (f_equal N_of_ascii) in Heq.
      - apply N.ltb_lt in Ed.
        rewrite (N_ascii_embedding d) in Heq by lia. lia.
      - apply N.ltb_ge in Ed. destruct (Hdr Ed) as [Hlead _]. lia. }
    rewrite Hstart, orb_true_iff, IH.
    rewrite (startsWith_points (c :: a) b) by (done || by constructor).
    split.
    + intros [[r Hr]|(p & r & ->)].
      * by exists [], r.
      * by exists (c :: p), r.
    + intros ([|x p] & r & H).
      * left. by exists r.
      * right. injection H as -> ->. by exists p, r.
Qed.

(** The table of the specification and the mapping of the model agree on
    every pair of points below 256. *)
Lemma lower_point_table :
  forallb (fun c => forallb (fun d =>
      Bool.eqb (lower_point c =? lower_point d)%N
        ((c =? d)%N || bool_decide ((c, d) ∈ letter_pairs)
         || bool_decide ((d, c) ∈ letter_pairs)))
    (map N.of_nat (seq 0 256))) (map N.of_nat (seq 0 256)) = true.
Proof. by vm_compute. Qed.

Lemma lower_point_same_letter c d :
  (c < 256)%N -> (d < 256)%N ->
  lower_point c = lower_point d <-> same_letter c d.
Proof.
  intros Hc Hd.
  assert (Hin : forall n, (n < 256)%N -> In n (map N.of_nat (seq 0 256))).
  { intros n Hn. apply in_map_iff. exists (N.to_nat n).
    split; [lia|]. apply in_seq. lia. }
  pose proof lower_point_table as Ht.
  rewrite forallb_forall in Ht. specialize (Ht c (Hin c Hc)).
  rewrite forallb_forall in Ht. specialize (Ht d (Hin d Hd)).
  apply Bool.eqb_prop in Ht. unfold same_letter.
  rewrite <- N.eqb_eq, Ht, !orb_true_iff, N.eqb_eq, !bool_decide_eq_true.
  tauto.
Qed.

Lemma lower_points_same_letters a b :
  Forall (fun n => (n < 256)%N) a -> Forall (fun n => (n < 256)%N) b ->
  map lower_point a = map lower_point b <-> Forall2 same_letter a b.
Proof.
  intros Ha. revert b. induction Ha as [|c a Hc Ha IH]; intros b Hb.
  - destruct b; simpl; (split; [intros H|inversion 1]);
      by (constructor || done).
  - destruct Hb as [|d b Hd Hb]; simpl.
    + split; [done|inversion 1].
    + split.
      * intros [= H1 H2]. constructor.
        -- by apply lower_point_same_letter.
        -- by apply IH.
      * intros (H1 & H2)%Forall2_cons. f_equal.
        -- by apply lower_point_same_letter.
        -- by apply IH.
Qed.

(** On texts of Latin-1 the test of the handler decides the case-blind
    substring relation of the specification. *)
Lemma includes_lower_ci_substring name term :
  latin1_text name -> latin1_text term ->
  includes (toLowerCase name) (toLowerCase term) = true <->
  ci_substring term name.
Proof.
  intros [n Hn] [t Ht].
  pose proof (latin1_points_bound _ _ Hn) as Bn.
  pose proof (latin1_points_bound _ _ Ht) as Bt.
  assert (Bln : Forall (fun n => (n < 256)%N) (map lower_point n)).
  { apply Forall_forall. intros x (y & <- & Hy%list_elem_of_In)%list_elem_of_In%in_map_iff.
    apply lower_point_bound. rewrite Forall_forall in Bn. by apply Bn. }
  assert (Blt : Forall (fun n => (n < 256)%N) (map lower_point t)).
  { apply Forall_forall. intros x (y & <- & Hy%list_elem_of_In)%list_elem_of_In%in_map_iff.
    apply lower_point_bound. rewrite Forall_forall in Bt. by apply Bt. }
  rewrite (toLowerCase_latin1 _ _ Hn), (toLowerCase_latin1 _ _ Ht).
  rewrite (includes_points _ _ Bln Blt). unfold ci_substring. split.
  - intros (p & r & H).
    apply map_eq_app in H as (pre & rest & -> & Hp & Hrest).
    apply map_eq_app in Hrest as (mid & post & -> & Hm & Hr).
    exists t, (pre ++ mid ++ post). split; [done|]. split; [done|].
    exists pre, mid, post. split; [done|].
    apply lower_points_same_letters; [|done|done].
    apply Forall_app in Bn as [_ Bn]. by apply Forall_app in Bn as [Bn _].
  - intros (t' & n' & Ht' & Hn' & pre & mid & post & -> & Hmid).
    rewrite Ht in Ht'. rewrite Hn in Hn'. simplify_eq.
    exists (map lower_point pre), (map lower_point post).
    rewrite !map_app. do 2 f_equal.
    apply lower_points_same_letters; [|done|done].
    apply Forall_app in Bn as [_ Bn]. by apply Forall_app in Bn as [Bn _].
Qed.

(** Texts equal up to case have one lower-case form. *)
Lemma toLowerCase_eq_nocase s t :
  eq_nocase s t -> toLowerCase s = toLowerCase t.
Proof.
  intros (a & b & Ha & Hb & Hab).
  rewrite (toLowerCase_latin1 _ _ Ha), (toLowerCase_latin1 _ _ Hb).
  f_equal. apply lower_points_same_letters;
    [by eapply latin1_points_bound..|done].
Qed.

Lemma name_matches_common search country name :
  common_name country = Some name ->
  name_matches search country =
    Ok (includes (toLowerCase name) (toLowerCase search)).
Proof.
  unfold common_name, name_matches, opt_get.
  destruct (nullish country) eqn:Ec; [done|].
  destruct (nullish (prop country "name")) eqn:En; [done|].
  destruct (prop (prop country "name") "common"); try done.
  by intros [= ->].
Qed.

Lemma js_filter_total (f : JsVal -> Throw JsError bool) (g : JsVal -> bool)
    (l : list JsVal) :
  Forall (fun c => f c = Ok (g c)) l ->
  js_filter f l = Ok (List.filter g l).
Proof.
  induction 1 as [|c l Hc _ IH]; [done|].
  simpl. rewrite Hc, IH. simpl. by destruct (g c).
Qed.

(** C6 (amended). With an empty search string the listing keeps the
    sequence as it is; with a non-empty one it keeps, in their order,
    exactly the records whose lower-cased common name includes the
    lower-cased term, which for names and terms that are texts of Latin-1
    are exactly the records whose common name contains the search term,
    case ignored. *)
Theorem search_filter (search : string) (countries : list JsVal) :
  (search = "" ->
     filter_countries search (JArr countries) = Ok (JArr countries)) /\
  (search <> "" ->
   Forall (fun c => is_Some (common_name c)) countries ->
   exists keep : JsVal -> bool,
     filter_countries search (JArr countries) =
       Ok (JArr (List.filter keep countries)) /\
     (forall c, c ∈ countries ->
        (keep c = true <->
         exists name, common_name c = Some name /\
           includes (toLowerCase name) (toLowerCase search) = true)) /\
     (latin1_text search ->
      forall c name, c ∈ countries ->
        common_name c = Some name -> latin1_text name ->
        (keep c = true <-> ci_substring search name))).
Proof.
  split.
  - by intros ->.
  - intros Hne Hall.
    set (keep := fun c =>
      match common_name c with
      | Some name => includes (toLowerCase name) (toLowerCase search)
      | None => false
      end).
    exists keep. split; [|split].
    + unfold filter_countries. simpl.
      rewrite (proj2 (String.eqb_neq search "") Hne). simpl.
      rewrite (js_filter_total _ keep); [done|].
      eapply Forall_impl; [exact Hall|]. intros c [name Hc]. simpl.
      unfold keep. rewrite Hc. by apply name_matches_common.
    + intros c _. unfold keep. destruct (common_name c) as [name|].
      * split; [intros H; by exists name | by intros (name' & [= <-] & H)].
      * split; [done | by intros (name & [=] & _)].
    + intros Hs c name _ Hc Hname. unfold keep. rewrite Hc.
      by apply includes_lower_ci_substring.
Qed.

End SearchFilter.

Section SearchFilterExamples.
Import Js Http VariantA Spec.
#[local] Existing Instance sample_engine.

(** A name can hold the search term letter for letter and be dropped all
    the same: the capital sigma that ends the name is lower-cased to its
    final form, the sigma of the term to the plain one. *)
Lemma search_final_sigma_counterexample :
  substring "Σ" "ΑΣ" /\
  filter_countries "Σ" (JArr [country "ΑΣ"]) = Ok (JArr []).
Proof.
  split; [by exists "Α", "" | by vm_compute].
Qed.

Example lower_final_sigma :
  toLowerCase "ΑΣ" = "ας" /\ toLowerCase "Σ" = "σ" /\
  toLowerCase "ΣΑΣ" = "σας".
Proof. by vm_compute. Qed.

Lemma search_filter_witness :
  exists keep : JsVal -> bool,
    filter_countries "uNiTed" (JArr world) =
      Ok (JArr (List.filter keep world)) /\
    (forall c, c ∈ world ->
       (keep c = true <->
        exists name, common_name c = Some name /\
          includes (toLowerCase name) (toLowerCase "uNiTed") = true)) /\
    (latin1_text "uNiTed" ->
     forall c name, c ∈ world ->
       common_name c = Some name -> latin1_text name ->
       (keep c = true <-> ci_substring "uNiTed" name)).
Proof.
  apply (search_filter "uNiTed" world).
  - discriminate.
  - repeat constructor; by eexists.
Defined.

Example search_united :
  filter_countries "uNiTed" (JArr world) =
    Ok (JArr [country "United States"; country "United Kingdom"]).
Proof. reflexivity. Qed.

(** A capital beyond ASCII is matched by its small letter. *)
Example search_aland :
  filter_countries "åland" (JArr [country "Åland Islands"; country "Peru"]) =
    Ok (JArr [country "Åland Islands"]).
Proof. by vm_compute. Qed.

End SearchFilterExamples.

(** ** Replay from the cache *)

Section CacheReplay.
Import Js Http VariantA Spec.

(** Two handlers that both missed: the second send replaces what the first
    stored, and a later request is answered with the second body. *)
Lemma cache_overwrite_counterexample :
  fst (run 300
         [Arrive listing 0; Arrive listing 10;
          Send listing listing_ok 50; Arrive listing 60;
          Send listing listing_unavailable 70; Arrive listing 80] ∅) =
    [None; None;
     Some listing_ok; Some (mkResponse 200 (body listing_ok));
     Some listing_unavailable;
     Some (mkResponse 200 (body listing_unavailable))] /\
  body listing_unavailable <> body listing_ok.
Proof. split; [by vm_compute | discriminate]. Qed.

(** An answer without a body is stored and not replayed. *)
Example cache_no_body_not_replayed :
  fst (run 300
         [Send listing (mkResponse 200 JUndefined) 0; Arrive listing 1] ∅) =
    [Some (mkResponse 200 JUndefined); None].
Proof. by vm_compute. Qed.

Lemma cache_key_inj r1 r2 :
  cache_key r1 = cache_key r2 -> originalUrl r1 = originalUrl r2.
Proof. apply (inj (String.app "__express__")). Qed.

(** A live entry is replayed with status 200 and stays. *)
Lemma cacheMiddleware_hit duration req now (c : gmap string CacheEntry) e :
  c !! cache_key req = Some e ->
  now - createdAt e <= ttl e ->
  value e <> JUndefined ->
  cacheMiddleware duration req now c =
    (Replied (mkResponse 200 (value e)), c).
Proof.
  intros Hc Hlive Hv. unfold cacheMiddleware, mem_get. rewrite Hc.
  destruct (now - createdAt e >? ttl e) eqn:E; [lia|].
  simpl. by destruct (value e).
Qed.

(** A request leaves the entries of the other keys alone. *)
Lemma cacheMiddleware_other duration req now (c : gmap string CacheEntry) key :
  key <> cache_key req ->
  (cacheMiddleware duration req now c).2 !! key = c !! key.
Proof.
  intros Hne. unfold cacheMiddleware, mem_get.
  destruct (c !! cache_key req) as [e|] eqn:Hc.
  - destruct (now - createdAt e >? ttl e).
    + simpl. by rewrite lookup_delete_ne.
    + by destruct (cached_truthy _).
  - done.
Qed.

Lemma step_quiet duration req t0 v ev (c : gmap string CacheEntry) :
  v <> JUndefined ->
  quiet duration req t0 ev ->
  c !! cache_key req = Some (mkEntry v t0 (duration * 1000)) ->
  (step duration ev c).2 !! cache_key req
    = Some (mkEntry v t0 (duration * 1000)) /\
  forall req' now,
    ev = Arrive req' now -> originalUrl req' = originalUrl req ->
    (step duration ev c).1 = Some (mkResponse 200 v).
Proof.
  intros Hv Hq Hc. destruct ev as [req' now|req' r' now]; simpl in *.
  - destruct (decide (originalUrl req' = originalUrl req)) as [Heq|Hne].
    + assert (cache_key req' = cache_key req) as Hk
        by (unfold cache_key; by rewrite Heq).
      specialize (Hq Heq).
      rewrite (cacheMiddleware_hit duration req' now c
                 (mkEntry v t0 (duration * 1000)));
        [|by rewrite Hk|simpl; lia|done].
      simpl. split; [done|]. by intros ? ? [= -> ->] _.
    + pose proof (cacheMiddleware_other duration req' now c (cache_key req)) as Ho.
      destruct (cacheMiddleware duration req' now c) as [[r|] c'] eqn:E;
        simpl in *.
      * split; [rewrite Ho; [done|by intros ?%cache_key_inj]|].
        by intros ? ? [= -> ->] ?.
      * split; [rewrite Ho; [done|by intros ?%cache_key_inj]|].
        by intros ? ? [= -> ->] ?.
  - split; [|done]. unfold mem_put. rewrite lookup_insert_ne; [done|].
    by intros ?%cache_key_inj.
Qed.

Lemma run_quiet duration req t0 v evs (c : gmap string CacheEntry) :
  v <> JUndefined ->
  Forall (quiet duration req t0) evs ->
  c !! cache_key req = Some (mkEntry v t0 (duration * 1000)) ->
  forall (i : nat) req' now,
    evs !! i = Some (Arrive req' now) ->
    originalUrl req' = originalUrl req ->
    (run duration evs c).1 !! i = Some (Some (mkResponse 200 v)).
Proof.
  intros Hv Hall. revert c.
  induction Hall as [|ev evs Hq _ IH]; intros c Hc i req' now Hi Hurl.
  - done.
  - destruct (step_quiet duration req t0 v ev c Hv Hq Hc) as [Hc' Hev].
    simpl. destruct (step duration ev c) as [r c'] eqn:Es.
    destruct (run duration evs c') as [rs c''] eqn:Er. simpl in *.
    destruct i as [|i]; simpl in *.
    + injection Hi as ->. by rewrite (Hev req' now).
    + specialize (IH c' Hc' i req' now Hi Hurl). by rewrite Er in IH.
Qed.

(** C9 (amended). Whatever a wrapped handler sends with a body, at any
    status, is stored under the original URL of its request; as long as no
    other handler sends for that URL, every request with that URL that
    arrives within the cache duration is answered from the store, with that
    body and the default status 200.  An error body, such as the one of a
    503, is thus served again as a 200. *)
Theorem cache_replay
    (duration : Z) (req : Request) (r : Response) (t0 : Z)
    (c : gmap string CacheEntry) (evs : list Event) :
  0 < duration ->
  body r <> JUndefined ->
  Forall (quiet duration req t0) evs ->
  (step duration (Send req r t0) c).1 = Some r /\
  forall (i : nat) req' now,
    evs !! i = Some (Arrive req' now) ->
    originalUrl req' = originalUrl req ->
    (run duration evs (step duration (Send req r t0) c).2).1 !! i
      = Some (Some (mkResponse 200 (body r))).
Proof.
  intros _ Hbody Hall. split; [done|].
  apply (run_quiet duration req t0 (body r)); [done..|].
  simpl. unfold mem_put. by rewrite lookup_insert_eq.
Qed.

Lemma cache_replay_witness :
  (run 300 [Arrive listing 1000; Arrive listing 299999]
     (step 300 (Send listing listing_unavailable 0) ∅).2).1 !! 1%nat
  = Some (Some (mkResponse 200
        (JObj [("error", JStr "Serviço indisponível");
               ("message", JStr "A API de países não respondeu")]))).
Proof.
  apply (proj2 (cache_replay 300 listing listing_unavailable 0 ∅
                  [Arrive listing 1000; Arrive listing 299999]
                  ltac:(lia) ltac:(discriminate)
                  ltac:(repeat constructor; simpl; intros _; lia))
           1%nat listing 299999); reflexivity.
Defined.

End CacheReplay.

(** ** More on the cache: expiry, isolation, whole routes *)

Section CacheLifetime.
Import Js Http VariantA Spec.
#[local] Existing Instance sample_engine.

Lemma step_quiet_store duration req t0 e ev (c : gmap string CacheEntry) :
  createdAt e = t0 -> ttl e = duration * 1000 ->
  quiet duration req t0 ev ->
  c !! cache_key req = Some e ->
  (step duration ev c).2 !! cache_key req = Some e.
Proof.
  intros Ht Hl Hq Hc. destruct ev as [req' now|req' r' now]; simpl in *.
  - destruct (decide (originalUrl req' = originalUrl req)) as [Heq|Hne].
    + assert (cache_key req' = cache_key req) as Hk
        by (unfold cache_key; by rewrite Heq).
      specialize (Hq Heq). unfold cacheMiddleware, mem_get. rewrite Hk, Hc.
      destruct (now - createdAt e >? ttl e) eqn:E; [lia|].
      by destruct (cached_truthy _).
    + pose proof (cacheMiddleware_other duration req' now c (cache_key req)) as Ho.
      destruct (cacheMiddleware duration req' now c) as [[r|] c'];
        simpl in *; rewrite Ho; try done; by intros ?%cache_key_inj.
  - unfold mem_put. rewrite lookup_insert_ne; [done|].
    by intros ?%cache_key_inj.
Qed.

Lemma run_quiet_store duration req t0 e evs (c : gmap string CacheEntry) :
  createdAt e = t0 -> ttl e = duration * 1000 ->
  Forall (quiet duration req t0) evs ->
  c !! cache_key req = Some e ->
  (run duration evs c).2 !! cache_key req = Some e.
Proof.
  intros Ht Hl Hall. revert c.
  induction Hall as [|ev evs Hq _ IH]; intros c Hc; [done|].
  pose proof (step_quiet_store duration req t0 e ev c Ht Hl Hq Hc) as Hc'.
  simpl. destruct (step duration ev c) as [r c'].
  specialize (IH c' Hc'). by destruct (run duration evs c') as [rs c''].
Qed.

(** X1. Replays do not renew an entry: whatever requests were answered
    from it in between, a request for the URL that arrives after the
    duration, counted from the send, is handed to the handler and the entry
    is dropped. *)
Theorem cache_expires_from_send
    (duration : Z) (req req' : Request) (r : Response) (t0 now : Z)
    (c : gmap string CacheEntry) (evs : list Event) :
  Forall (quiet duration req t0) evs ->
  originalUrl req' = originalUrl req ->
  t0 + duration * 1000 < now ->
  cacheMiddleware duration req' now
    (run duration evs (step duration (Send req r t0) c).2).2 =
  (Next,
   delete (cache_key req)
     (run duration evs (step duration (Send req r t0) c).2).2).
Proof.
  intros Hall Hurl Hnow.
  assert (cache_key req' = cache_key req) as Hk
    by (unfold cache_key; by rewrite Hurl).
  pose proof (run_quiet_store duration req t0
                (mkEntry (body r) t0 (duration * 1000)) evs
                (step duration (Send req r t0) c).2 eq_refl eq_refl Hall) as H.
  unfold cacheMiddleware, mem_get. rewrite Hk, H.
  - simpl. destruct (now - t0 >? duration * 1000) eqn:E; [done|lia].
  - simpl. unfold mem_put. by rewrite lookup_insert_eq.
Qed.

Lemma cache_expires_from_send_witness :
  cacheMiddleware 300 listing 300001
    (run 300 [Arrive listing 299000]
       (step 300 (Send listing listing_ok 0) ∅).2).2 =
  (Next,
   delete (cache_key listing)
     (run 300 [Arrive listing 299000]
        (step 300 (Send listing listing_ok 0) ∅).2).2).
Proof.
  apply (cache_expires_from_send 300 listing listing listing_ok 0 300001 ∅
           [Arrive listing 299000]).
  - repeat constructor.
  - reflexivity.
  - lia.
Defined.

(** X2. The entries of two URLs do not touch: what a handler sends for one
    URL changes neither the answer nor the verdict the middleware gives a
    request for another URL. *)
Theorem cache_urls_isolated
    (duration : Z) (req req' : Request) (r : Response) (t now : Z)
    (c : gmap string CacheEntry) :
  originalUrl req' <> originalUrl req ->
  (cacheMiddleware duration req' now
     (cached_send duration req r t c).2).1 =
  (cacheMiddleware duration req' now c).1.
Proof.
  intros Hne. unfold cacheMiddleware, mem_get, cached_send, mem_put. simpl.
  rewrite lookup_insert_ne by (by intros ?%cache_key_inj).
  destruct (c !! cache_key req') as [e|]; [|done].
  destruct (now - createdAt e >? ttl e); [done|].
  by destruct (cached_truthy _).
Qed.

Lemma cache_urls_isolated_witness :
  (cacheMiddleware 300 (mkRequest "GET" "/api/countries/peru" None) 10
     (cached_send 300 listing listing_ok 0 ∅).2).1 =
  (cacheMiddleware 300 (mkRequest "GET" "/api/countries/peru" None) 10 ∅).1.
Proof.
  apply (cache_urls_isolated 300 listing
           (mkRequest "GET" "/api/countries/peru" None) listing_ok 0 10 ∅).
  discriminate.
Defined.

(** X3. A wrapped route on a miss is transparent: the client gets the
    handler's answer, status included; and the next request for the same URL
    within the duration is answered with that body and status 200 without
    any request to the provider, whatever handler would have run. *)
Theorem route_replay_makes_no_request
    (duration : Z) (handler handler' : Fetch Response) (req req' : Request)
    (arrive sent arrive' sent' : Z) (c : gmap string CacheEntry)
    (log : list string) :
  (cacheMiddleware duration req arrive c).1 = Next ->
  body (handler log).1 <> JUndefined ->
  originalUrl req' = originalUrl req ->
  arrive' < sent + duration * 1000 ->
  (cached_route duration handler req arrive sent c log).1.1 = (handler log).1 /\
  (cached_route duration handler req arrive sent c log).2 = (handler log).2 /\
  cached_route duration handler' req' arrive' sent'
    (cached_route duration handler req arrive sent c log).1.2
    (cached_route duration handler req arrive sent c log).2 =
  (mkResponse 200 (body (handler log).1),
   (cached_route duration handler req arrive sent c log).1.2,
   (handler log).2).
Proof.
  intros Hmiss Hbody Hurl Hnow.
  destruct (handler log) as [r log1] eqn:Eh. simpl in *.
  assert (Hfirst : cached_route duration handler req arrive sent c log =
    (r, mem_put (cache_key req) (body r) (duration * 1000) sent
          (cacheMiddleware duration req arrive c).2, log1)).
  { unfold cached_route.
    destruct (cacheMiddleware duration req arrive c) as [[r0|] c0];
      [discriminate|]. by rewrite Eh. }
  rewrite Hfirst. simpl. split; [done|]. split; [done|].
  unfold cached_route.
  assert (cache_key req' = cache_key req) as Hk
    by (unfold cache_key; by rewrite Hurl).
  rewrite (cacheMiddleware_hit duration req' arrive' _
             (mkEntry (body r) sent (duration * 1000))); [done|..].
  - unfold mem_put. by rewrite Hk, lookup_insert_eq.
  - simpl. lia.
  - done.
Qed.

Lemma route_replay_makes_no_request_witness :
  listing_route empty_upstream (mkQuery None None None) listing 1000 1100
    (listing_route (fun _ _ => Thrown (mkError "timeout" None true))
       (mkQuery None None None) listing 0 50 ∅ []).1.2
    (listing_route (fun _ _ => Thrown (mkError "timeout" None true))
       (mkQuery None None None) listing 0 50 ∅ []).2 =
  (mkResponse 200
     (JObj [("error", JStr "Serviço indisponível");
            ("message", JStr "A API de países não respondeu")]),
   (listing_route (fun _ _ => Thrown (mkError "timeout" None true))
       (mkQuery None None None) listing 0 50 ∅ []).1.2,
   ["https://restcountries.com/v3.1/all"]).
Proof.
  apply (route_replay_makes_no_request 300
           (get_countries (fun _ _ => Thrown (mkError "timeout" None true))
              (mkQuery None None None))
           (get_countries empty_upstream (mkQuery None None None))
           listing listing 0 50 1000 1100 ∅ []).
  - reflexivity.
  - discriminate.
  - reflexivity.
  - lia.
Defined.

End CacheLifetime.
(** ** More on the listing: pages, edges, the search term *)

Section ListingPages.
Import Js Http VariantA Spec.

Lemma page_of_slice limit l p :
  page_of limit l p =
    slice l (num_mul (num_sub (to_number p) (Finite 1)) (to_number limit))
            (num_mul (to_number p) (to_number limit)).
Proof. reflexivity. Qed.

Lemma page_of_take_drop limit l p :
  1 <= limit -> 1 <= p ->
  to_number limit <> PosInfinity -> Z.of_nat (length l) < 2 ^ 32 ->
  page_of limit l p =
    take (Z.to_nat limit) (drop (Z.to_nat (p - 1) * Z.to_nat limit) l).
Proof.
  intros Hl Hp Hfin Hlen. rewrite page_of_slice, page_slice by done.
  do 2 f_equal. nia.
Qed.

Lemma pages_concat limit (l : list JsVal) (n : nat) :
  1 <= limit ->
  to_number limit <> PosInfinity -> Z.of_nat (length l) < 2 ^ 32 ->
  concat (map (page_of limit l) (seqZ 1 (Z.of_nat n))) =
    take (n * Z.to_nat limit) l.
Proof.
  intros Hl Hfin Hlen. induction n as [|n IH].
  - by rewrite take_0.
  - replace (Z.of_nat (S n)) with (Z.of_nat n + 1) by lia.
    rewrite seqZ_app by lia.
    rewrite map_app, concat_app, IH.
    replace (seqZ (1 + Z.of_nat n) 1) with [Z.of_nat n + 1]
      by (rewrite (seqZ_cons _ 1) by lia; simpl; f_equal; lia).
    cbn [map concat]. rewrite app_nil_r, page_of_take_drop by (done || lia).
    replace (Z.to_nat (Z.of_nat n + 1 - 1)) with n by lia.
    rewrite take_take_drop. f_equal. lia.
Qed.

Lemma rel_index_nonneg len d : 0 <= len -> 0 <= rel_index len d.
Proof.
  intros Hl. destruct d as [z| | |]; simpl; try lia.
  destruct (z <? 0) eqn:Hz; [lia|]. apply Z.ltb_ge in Hz. lia.
Qed.

Lemma slice_end_zero {A} (l : list A) s e :
  rel_index (Z.of_nat (length l)) e = 0 -> slice l s e = [].
Proof.
  intros He. unfold slice. rewrite He.
  pose proof (rel_index_nonneg (Z.of_nat (length l)) s ltac:(lia)).
  replace (Z.to_nat (0 - _)) with 0%nat by lia. apply take_0.
Qed.

Lemma index_times_zero_l len d :
  0 <= len -> rel_index len (num_mul (Finite 0) d) = 0.
Proof.
  intros Hl. destruct d as [z| | |]; simpl; try done.
  unfold rel_index, round_double. simpl. lia.
Qed.

Lemma index_times_zero_r len d :
  0 <= len -> rel_index len (num_mul d (Finite 0)) = 0.
Proof.
  intros Hl. destruct d as [z| | |]; simpl; try done.
  rewrite Z.mul_0_r. unfold rel_index, round_double. simpl. lia.
Qed.

(** X4. The pages of a list tile it: for a limit of at least 1 that converts
    to a finite number and a list shorter than [2^32], the data of pages 1
    to [totalPages], one after the other, is the list itself, every record
    once and in order. *)
Theorem pages_tile_the_list (limit : Z) (l : list JsVal) (k : Z) :
  1 <= limit ->
  to_number limit <> PosInfinity ->
  Z.of_nat (length l) < 2 ^ 32 ->
  ceil_div (length l) (to_number limit) = Finite k ->
  concat (map (page_of limit l) (seqZ 1 k)) = l.
Proof.
  intros Hl Hfin Hlen Hk.
  destruct (ceil_div_positive (length l) limit Hl Hfin Hlen)
    as (k' & Hk' & Hlo & Hhi).
  rewrite Hk in Hk'. injection Hk' as <-.
  assert (0 <= k) by nia.
  replace k with (Z.of_nat (Z.to_nat k)) by lia.
  rewrite pages_concat by done. apply take_ge. nia.
Qed.

Lemma pages_tile_the_list_witness :
  concat (map (page_of 2 [JNum 1; JNum 2; JNum 3; JNum 4; JNum 5])
            (seqZ 1 3)) =
    [JNum 1; JNum 2; JNum 3; JNum 4; JNum 5].
Proof.
  apply (pages_tile_the_list 2 [JNum 1; JNum 2; JNum 3; JNum 4; JNum 5] 3);
    [lia | discriminate | simpl; lia | reflexivity].
Defined.

(** X5. A page past the last one is not an error: for a limit of at least 1
    that converts to a finite number, a list shorter than [2^32] and a page
    beyond [totalPages], the listing answers with empty data, the same
    total and number of pages, and the page number as the number the query
    value converts to. *)
Theorem page_past_the_end (page limit k : Z) (l : list JsVal) :
  1 <= limit ->
  to_number limit <> PosInfinity ->
  Z.of_nat (length l) < 2 ^ 32 ->
  ceil_div (length l) (to_number limit) = Finite k ->
  k < page ->
  paginate page limit (JArr l) =
    Ok (mkPage (Z.of_nat (length l)) (to_number page) (Finite k) (JArr [])).
Proof.
  intros Hl Hfin Hlen Hk Hp.
  destruct (ceil_div_positive (length l) limit Hl Hfin Hlen)
    as (k' & Hk' & Hlo & Hhi).
  rewrite Hk in Hk'. injection Hk' as <-.
  assert (0 <= k) by nia.
  unfold paginate. rewrite Hk. do 3 f_equal.
  rewrite page_slice by (done || lia).
  rewrite drop_ge by nia. apply take_nil.
Qed.

Lemma page_past_the_end_witness :
  paginate 4 2 (JArr [JNum 1; JNum 2; JNum 3; JNum 4; JNum 5]) =
    Ok (mkPage 5 (Finite 4) (Finite 3) (JArr [])).
Proof.
  apply (page_past_the_end 4 2 3 [JNum 1; JNum 2; JNum 3; JNum 4; JNum 5]);
    [lia | discriminate | simpl; lia | reflexivity | lia].
Defined.

(** X6. Page 0 is empty for every limit, and a limit of 0 gives empty data
    on every page with a number of pages that is not finite, written [null]
    in the body. *)
Theorem page_zero_and_limit_zero (l : list JsVal) (page limit : Z) :
  page_of limit l 0 = [] /\
  page_of 0 l page = [] /\
  exists pr, paginate page 0 (JArr l) = Ok pr /\
    data pr = JArr [] /\ number_json (totalPages pr) = JNull.
Proof.
  split; [|split].
  - rewrite page_of_slice. apply slice_end_zero.
    apply index_times_zero_l. lia.
  - rewrite page_of_slice. apply slice_end_zero.
    apply (index_times_zero_r _ (to_number page)). lia.
  - eexists. split; [reflexivity|]. simpl. split.
    + f_equal. apply slice_end_zero.
      apply (index_times_zero_r _ (to_number page)). lia.
    + unfold ceil_div. simpl. by destruct (length l).
Qed.

(** A negative page counts from the end of the list. *)
Example page_minus_one :
  page_of 2 [JNum 1; JNum 2; JNum 3; JNum 4; JNum 5] (-1) = [JNum 2; JNum 3].
Proof. reflexivity. Qed.

End ListingPages.

Section ListingSearch.
Import Js Http VariantA Spec.
Context {E : Engine}.

Lemma name_matches_cases search c :
  (exists b, name_matches search c = Ok b /\ is_Some (common_name c)) \/
  (exists what, name_matches search c = Thrown (type_error what) /\
     common_name c = None).
Proof.
  unfold name_matches, common_name, opt_get.
  destruct (nullish c); [right; by eexists|].
  destruct (nullish (prop c "name")); [right; by eexists|].
  destruct (prop (prop c "name") "common");
    try (right; by eexists). left. by eexists.
Qed.

Lemma js_filter_throws search (l : list JsVal) c :
  c ∈ l -> common_name c = None ->
  exists what, js_filter (name_matches search) l = Thrown (type_error what).
Proof.
  induction l as [|x l IH]; [by intros ?%elem_of_nil|].
  intros Hin Hc. simpl.
  destruct (name_matches_cases search x) as [(b & -> & Hx)|(what & -> & _)];
    [|by eexists].
  apply elem_of_cons in Hin as [->|Hin].
  - rewrite Hc in Hx. by destruct Hx.
  - destruct (IH Hin Hc) as (what & ->). by eexists.
Qed.

(** X7. One record without a common name spoils a search: with a non-empty
    search term the listing answers with the classifier's 500, wherever the
    record stands in the provider's data; without a search term the same
    data is listed with status 200. *)
Theorem search_fails_on_nameless_record
    (up : Upstream) (log : list string) (countries : list JsVal)
    (c : JsVal) (search : string) (page limit : option Z) :
  up log (COUNTRIES_API +:+ "/all") = Ok (JArr countries) ->
  c ∈ countries -> common_name c = None -> search <> "" ->
  (get_countries up (mkQuery page limit (Some search)) log).1 =
    mkResponse 500 (JObj [("error", JStr "Erro interno no servidor")]) /\
  status (get_countries up (mkQuery page limit None) log).1 = 200.
Proof.
  intros Hup Hin Hc Hne. unfold get_countries, axios_get. rewrite Hup.
  cbn [and_then]. unfold list_page. cbn [q_page q_limit q_search default].
  split.
  - unfold filter_countries. simpl.
    rewrite (proj2 (String.eqb_neq search "") Hne). simpl.
    by destruct (js_filter_throws search countries c Hin Hc) as (what & ->).
  - done.
Qed.

Lemma js_filter_ext (f g : JsVal -> Throw JsError bool) l :
  (forall c, f c = g c) -> js_filter f l = js_filter g l.
Proof.
  intros H. induction l as [|x l IH]; [done|]. simpl. by rewrite H, IH.
Qed.

Lemma latin1_points_nil s : latin1_points s = Some [] -> s = "".
Proof.
  destruct s as [|c s]; [done|]. simpl.
  destruct (N_of_ascii c <? 128)%N.
  { by destruct (latin1_points s). }
  destruct (_ || _)%N; [|done]. destruct s as [|d s]; [done|].
  destruct (_ && _)%N; [|done]. by destruct (latin1_points s).
Qed.

Lemma eq_nocase_empty s s' : eq_nocase s s' -> s = "" <-> s' = "".
Proof.
  intros (a & b & Ha & Hb & Hab). split; intros ->.
  - injection Ha as <-. apply Forall2_nil_inv_l in Hab as ->.
    by apply latin1_points_nil.
  - injection Hb as <-. apply Forall2_nil_inv_r in Hab as ->.
    by apply latin1_points_nil.
Qed.

(** X8. The case of the search term does not matter: two terms of Latin-1
    that are equal up to the case of their letters, the accented ones
    included, give the same result on every data, a failure included. *)
Theorem search_term_case_blind (s s' : string) (countries : JsVal) :
  eq_nocase s s' ->
  filter_countries s countries = filter_countries s' countries.
Proof.
  intros Hs. pose proof (toLowerCase_eq_nocase s s' Hs) as Hlow.
  pose proof (eq_nocase_empty s s' Hs) as Hempty.
  unfold filter_countries.
  assert (truthy (JStr s) = truthy (JStr s')) as ->.
  { simpl. f_equal. destruct (String.eqb_spec s ""), (String.eqb_spec s' "");
      tauto. }
  destruct (truthy (JStr s')); [|done].
  destruct countries; try done. f_equal.
  apply js_filter_ext. intros c. unfold name_matches. by rewrite Hlow.
Qed.

Lemma js_filter_sublist f l l' : js_filter f l = Ok l' -> sublist l' l.
Proof.
  revert l'. induction l as [|x l IH]; intros l' H; simpl in H.
  - injection H as <-. constructor.
  - destruct (f x) as [b|]; [|done]. simpl in H.
    destruct (js_filter f l) as [r|]; [|done]. simpl in H.
    injection H as <-. destruct b.
    + apply sublist_skip. by apply IH.
    + apply sublist_cons. by apply IH.
Qed.

(** X9. The filter only drops records: whenever it succeeds on an array, its
    result is a subsequence of the provider's data, so nothing is added,
    repeated or reordered and [total] never exceeds the number of records
    the provider gave. *)
Theorem search_result_is_subsequence
    (search : string) (l : list JsVal) (v : JsVal) :
  filter_countries search (JArr l) = Ok v ->
  exists l', v = JArr l' /\ sublist l' l /\ (length l' <= length l)%nat.
Proof.
  unfold filter_countries. destruct (truthy (JStr search)).
  - destruct (js_filter (name_matches search) l) as [l'|] eqn:Hf; [|done].
    simpl. intros [= <-]. exists l'. split; [done|].
    pose proof (js_filter_sublist _ _ _ Hf) as Hs.
    split; [done | by apply sublist_length].
  - intros [= <-]. by exists l.
Qed.

Lemma includes_trans a b c :
  includes a b = true -> includes b c = true -> includes a c = true.
Proof.
  rewrite !includes_substring.
  intros (p & q & ->) (p' & q' & ->).
  exists (p +:+ p'), (q' +:+ q). by rewrite !string_app_assoc.
Qed.

Lemma js_filter_narrow (f g : JsVal -> Throw JsError bool) l lf :
  (forall c b, f c = Ok b -> exists b', g c = Ok b' /\ (b = true -> b' = true)) ->
  js_filter f l = Ok lf ->
  exists lg, js_filter g l = Ok lg /\ sublist lf lg.
Proof.
  intros H. revert lf. induction l as [|x l IH]; intros lf Hf; simpl in *.
  - injection Hf as <-. by exists [].
  - destruct (f x) as [b|] eqn:Ex; [|done]. simpl in Hf.
    destruct (js_filter f l) as [r|]; [|done]. simpl in Hf.
    injection Hf as <-.
    destruct (H x b Ex) as (b' & -> & Hb).
    destruct (IH r eq_refl) as (lg & -> & Hsub). simpl.
    eexists. split; [done|].
    destruct b.
    + rewrite Hb by done. by apply sublist_skip.
    + destruct b'; [by apply sublist_cons | done].
Qed.

Lemma ci_substring_includes short long :
  ci_substring short long ->
  includes (toLowerCase long) (toLowerCase short) = true.
Proof.
  intros H. apply includes_lower_ci_substring; [..|done].
  - destruct H as (t & n & _ & Hn & _). by exists n.
  - destruct H as (t & n & Ht & _). by exists t.
Qed.

Lemma ci_substring_empty short : ci_substring short "" -> short = "".
Proof.
  intros (t & n & Ht & [= <-] & pre & mid & post & Hn & Hmid).
  symmetry in Hn. apply app_eq_nil in Hn as [_ Hn].
  apply app_eq_nil in Hn as [-> _].
  apply Forall2_nil_inv_l in Hmid as ->. by apply latin1_points_nil.
Qed.

(** X10. A longer term narrows the search: when [short] and [long] are
    texts of Latin-1, [short] occurs in [long], case ignored, and the
    search for [long] succeeds, the search for [short] succeeds as well and
    keeps every record the search for [long] keeps. *)
Theorem search_narrows (short long : string) (l l2 : list JsVal) :
  short <> "" ->
  ci_substring short long ->
  filter_countries long (JArr l) = Ok (JArr l2) ->
  exists l1,
    filter_countries short (JArr l) = Ok (JArr l1) /\ sublist l2 l1.
Proof.
  intros Hne Hci. pose proof (ci_substring_includes _ _ Hci) as Hsub.
  assert (long <> "") as Hlong.
  { intros ->. by apply ci_substring_empty in Hci. }
  unfold filter_countries. simpl.
  rewrite (proj2 (String.eqb_neq long "") Hlong).
  rewrite (proj2 (String.eqb_neq short "") Hne). simpl.
  destruct (js_filter (name_matches long) l) as [r|] eqn:Hr; [|done].
  simpl. intros [= <-].
  destruct (js_filter_narrow (name_matches long) (name_matches short) l r)
    as (lg & -> & Hs); [|done|by exists lg].
  intros c b. unfold name_matches.
  destruct (nullish c); [done|].
  destruct (nullish (prop c "name")); [done|].
  destruct (prop (prop c "name") "common"); try done.
  intros [= <-]. eexists. split; [done|].
  intros Hin. by apply (includes_trans _ _ _ Hin).
Qed.

(** X11. Both handlers of variant A make exactly one request to the
    provider whatever the outcome, the listing to [/all] and the detail to
    [/name/] followed by the name as it came, not encoded; a rejection of
    that request is answered by the classifier, with no second attempt. *)
Theorem variantA_single_request
    (up : Upstream) (q : ListQuery) (name : string) (fields : option string)
    (log : list string) :
  (get_countries up q log).2 = log ++ [COUNTRIES_API +:+ "/all"] /\
  (get_country up name fields log).2 =
    log ++ [COUNTRIES_API +:+ "/name/" +:+ name] /\
  (forall error, up log (COUNTRIES_API +:+ "/all") = Thrown error ->
     (get_countries up q log).1 = handleApiError error) /\
  (forall error,
     up log (COUNTRIES_API +:+ "/name/" +:+ name) = Thrown error ->
     (get_country up name fields log).1 = handleApiError error).
Proof.
  unfold get_countries, get_country, axios_get. repeat split.
  - by destruct (and_then _ _).
  - by destruct (and_then _ _).
  - by intros error ->.
  - by intros error ->.
Qed.

End ListingSearch.

Section ListingSearchExamples.
Import Js Http VariantA Spec.
#[local] Existing Instance sample_engine.

Lemma search_fails_on_nameless_record_witness :
  (get_countries (fun _ _ => Ok (JArr [country "Peru"; JObj []]))
     (mkQuery None None (Some "pe")) []).1 =
    mkResponse 500 (JObj [("error", JStr "Erro interno no servidor")]) /\
  status (get_countries (fun _ _ => Ok (JArr [country "Peru"; JObj []]))
            (mkQuery None None None) []).1 = 200.
Proof.
  apply (search_fails_on_nameless_record
           (fun _ _ => Ok (JArr [country "Peru"; JObj []])) []
           [country "Peru"; JObj []] (JObj []) "pe" None None).
  - reflexivity.
  - apply list_elem_of_In. simpl. auto.
  - reflexivity.
  - discriminate.
Defined.

Lemma search_term_case_blind_witness :
  filter_countries "ÅLAND" (JArr [country "Åland Islands"; country "Peru"]) =
  filter_countries "åland" (JArr [country "Åland Islands"; country "Peru"]).
Proof.
  apply (search_term_case_blind "ÅLAND" "åland"
           (JArr [country "Åland Islands"; country "Peru"])).
  eexists _, _. split; [reflexivity|]. split; [reflexivity|].
  apply lower_points_same_letters; [repeat constructor..|reflexivity].
Defined.

Lemma search_result_is_subsequence_witness :
  exists l', JArr [country "United States"; country "United Kingdom"]
             = JArr l' /\
    sublist l' world /\ (length l' <= length world)%nat.
Proof.
  apply (search_result_is_subsequence "united" world). reflexivity.
Defined.

Lemma search_narrows_witness :
  exists l1,
    filter_countries "UNI" (JArr world) = Ok (JArr l1) /\
    sublist [country "United Kingdom"] l1.
Proof.
  apply (search_narrows "UNI" "united k" world [country "United Kingdom"]).
  - discriminate.
  - apply includes_lower_ci_substring;
      [by eexists | by eexists | reflexivity].
  - reflexivity.
Defined.

Lemma variantA_single_request_witness :
  (get_country
     (fun _ _ => Thrown (mkError "Request failed with status code 404"
                           (Some (mkReply 404 (JObj [("status", JNum 404)])))
                           true))
     "atlantis" None []).1 =
  mkResponse 404
    (JObj [("error", JStr "Erro na API externa");
           ("details", JObj [("status", JNum 404)])]).
Proof.
  apply (proj2 (proj2 (proj2 (variantA_single_request
     (fun _ _ => Thrown (mkError "Request failed with status code 404"
                           (Some (mkReply 404 (JObj [("status", JNum 404)])))
                           true))
     (mkQuery None None None) "atlantis" None [])))
     (mkError "Request failed with status code 404"
        (Some (mkReply 404 (JObj [("status", JNum 404)]))) true)).
  reflexivity.
Defined.

End ListingSearchExamples.

(** ** More on the detail endpoints: keys of a selection, the name in the URL *)

Section SelectionKeys.
Import Js Http VariantA Spec.

Lemma obj_set_keys o k v :
  ((k ∈ map fst o) /\ map fst (obj_set o k v) = map fst o) \/
  ((k ∉ map fst o) /\ map fst (obj_set o k v) = map fst o ++ [k]).
Proof.
  induction o as [|[k0 v0] o IH]; simpl.
  - right. split; [apply not_elem_of_nil | done].
  - destruct (String.eqb_spec k0 k) as [->|Hne]; simpl.
    + left. split; [apply elem_of_cons; by left | done].
    + destruct IH as [[Hin ->]|[Hnin ->]].
      * left. split; [apply elem_of_cons; by right | done].
      * right. split; [|done]. rewrite elem_of_cons. by intros [->|?].
Qed.

Lemma select_field_keys cd acc field acc' :
  select_field cd acc field = Ok acc' ->
  NoDup (map fst acc) ->
  NoDup (map fst acc') /\
  forall k, k ∈ map fst acc' -> k ∈ map fst acc \/ k = field.
Proof.
  unfold select_field. destruct (nullish cd); [done|].
  destruct (truthy (prop cd field)); [|intros [= <-]; auto].
  destruct (String.eqb field "__proto__"); intros [= <-] Hnd; [auto|].
  destruct (obj_set_keys acc field (prop cd field)) as [[Hin ->]|[Hnin ->]].
  - auto.
  - split.
    + apply NoDup_app. split; [done|]. split; [|apply NoDup_singleton].
      intros x Hx Hx'%list_elem_of_singleton. by subst.
    + intros k [?|Hk%list_elem_of_singleton]%elem_of_app; auto.
Qed.

Lemma select_fields_keys cd fieldList acc r :
  select_fields cd fieldList acc = Ok r ->
  NoDup (map fst acc) ->
  NoDup (map fst r) /\
  forall k, k ∈ map fst r -> k ∈ map fst acc \/ k ∈ fieldList.
Proof.
  revert acc. induction fieldList as [|field rest IH]; intros acc; simpl.
  - intros [= <-]. auto.
  - destruct (select_field cd acc field) as [acc'|] eqn:E; [|done]. simpl.
    intros Hr Hnd. destruct (select_field_keys _ _ _ _ E Hnd) as [Hnd' Hk'].
    destruct (IH acc' Hr Hnd') as [Hndr Hkr]. split; [done|].
    intros k Hk. destruct (Hkr k Hk) as [Hacc|Hrest].
    + destruct (Hk' k Hacc) as [?|Heq]; [by left|].
      right. apply elem_of_cons. by left.
    + right. apply elem_of_cons. by right.
Qed.

(** X12. Whatever the record, a selection that succeeds is an object whose
    keys are all among the requested names, each at most once however often
    it was requested; so it has at most as many fields as names were
    requested. *)
Theorem selection_keys (fields : string) (countryData v : JsVal) :
  fields <> "" ->
  filter_fields (Some fields) countryData = Ok v ->
  exists r, v = JObj r /\
    NoDup (map fst r) /\
    (forall k, k ∈ map fst r -> k ∈ split "," fields) /\
    (length r <= length (split "," fields))%nat.
Proof.
  intros Hne. unfold filter_fields. simpl.
  rewrite (proj2 (String.eqb_neq fields "") Hne). simpl.
  destruct (select_fields countryData (split "," fields) []) as [r|] eqn:E;
    [|done].
  simpl. intros [= <-]. exists r. split; [done|].
  destruct (select_fields_keys _ _ _ _ E (NoDup_nil_2)) as [Hnd Hk].
  assert (Hsub : forall k, k ∈ map fst r -> k ∈ split "," fields).
  { intros k Hin. destruct (Hk k Hin) as [?%elem_of_nil|?]; done. }
  split; [done|]. split; [done|].
  rewrite <- (length_map fst r).
  apply submseteq_length. by apply NoDup_submseteq.
Qed.

Lemma selection_keys_witness :
  exists r, JObj [("name", JStr "Peru")] = JObj r /\
    NoDup (map fst r) /\
    (forall k, k ∈ map fst r -> k ∈ split "," "name,name,area") /\
    (length r <= length (split "," "name,name,area"))%nat.
Proof.
  apply (selection_keys "name,name,area"
           (JObj [("name", JStr "Peru"); ("area", JNum 0)])).
  - discriminate.
  - reflexivity.
Defined.

Lemma encode_length s :
  (String.length s <= String.length (encodeURIComponent s))%nat.
Proof.
  induction s as [|c s IH]; simpl; [lia|].
  destruct (uri_unreserved c); simpl; lia.
Qed.

Lemma encode_fixed_point s :
  encodeURIComponent s = s <-> all_chars uri_unreserved s = true.
Proof.
  induction s as [|c s IH]; simpl; [done|].
  destruct (uri_unreserved c) eqn:Ec; simpl.
  - rewrite <- IH. split; [by intros [= ->] | by intros ->].
  - split; [|done]. intros [= Hc Hs].
    pose proof (encode_length s) as Hlen.
    rewrite <- Hs in Hlen at 1. simpl in Hlen. lia.
Qed.

(** X13. Variant A puts the name in the URL as it came and variant B
    encodes it first: the detail request of A and the relaxed request of B
    are the same URL exactly when every unit of the name is a letter, a
    digit or one of [- _ . ! ~ * ' ( )]. *)
Theorem raw_and_encoded_urls (name : string) :
  VariantB.relaxed_url name = COUNTRIES_API +:+ "/name/" +:+ name <->
  all_chars uri_unreserved name = true.
Proof.
  rewrite <- encode_fixed_point. unfold VariantB.relaxed_url. split.
  - intros H. apply (inj (String.app COUNTRIES_API)) in H.
    by apply (inj (String.app "/name/")) in H.
  - by intros ->.
Qed.

Lemma hex_digit_code (m : N) :
  (m < 16)%N ->
  N_of_ascii (hex_digit m) = if (m <? 10)%N then (48 + m)%N else (55 + m)%N.
Proof.
  intros Hm. unfold hex_digit.
  destruct (m <? 10)%N eqn:E; apply N_ascii_embedding.
  - apply N.ltb_lt in E. lia.
  - lia.
Qed.

Lemma hex_digit_unreserved (m : N) :
  (m < 16)%N -> uri_unreserved (hex_digit m) = true.
Proof.
  intros Hm. unfold uri_unreserved. rewrite hex_digit_code by done.
  destruct (m <? 10)%N eqn:E.
  - apply N.ltb_lt in E. apply orb_true_iff. left.
    apply orb_true_iff. right. apply andb_true_iff. split; apply N.leb_le; lia.
  - apply N.ltb_ge in E. apply orb_true_iff. left.
    apply orb_true_iff. left. apply orb_true_iff. left.
    apply andb_true_iff. split; apply N.leb_le; lia.
Qed.

Lemma hex_digit_inj (m m' : N) :
  (m < 16)%N -> (m' < 16)%N -> hex_digit m = hex_digit m' -> m = m'.
Proof.
  intros Hm Hm' H. apply (f_equal N_of_ascii) in H.
  rewrite !hex_digit_code in H by done.
  destruct (m <? 10)%N eqn:E, (m' <? 10)%N eqn:E';
    rewrite ?N.ltb_lt, ?N.ltb_ge in *; lia.
Qed.

Lemma ascii_bound c : (N_of_ascii c < 256)%N.
Proof. apply N_ascii_bounded. Qed.

(** X14. An encoded name cannot leave its path segment: every unit of
    [encodeURIComponent name] is unreserved or a percent sign, so the URLs
    of variant B hold no slash, question mark, ampersand, hash or space
    that came from the name. *)
Theorem encoded_name_is_safe (name : string) :
  all_chars uri_safe (encodeURIComponent name) = true /\
  forallb (fun c => negb (uri_safe c)) ["/"; "?"; "&"; "#"; "="; " "]%char
    = true.
Proof.
  split; [|reflexivity].
  induction name as [|c s IH]; simpl; [done|].
  destruct (uri_unreserved c) eqn:Ec; simpl.
  - unfold uri_safe at 1. by rewrite Ec, IH.
  - rewrite IH. pose proof (ascii_bound c).
    unfold uri_safe.
    rewrite !hex_digit_unreserved; [done|..].
    + apply N.mod_lt. lia.
    + apply N.Div0.div_lt_upper_bound. lia.
Qed.

Lemma encode_inj s t :
  encodeURIComponent s = encodeURIComponent t -> s = t.
Proof.
  revert t. induction s as [|c s IH]; intros [|d t]; simpl.
  - done.
  - by destruct (uri_unreserved d).
  - by destruct (uri_unreserved c).
  - destruct (uri_unreserved c) eqn:Ec, (uri_unreserved d) eqn:Ed.
    + intros [= -> H]. by rewrite (IH t H).
    + intros [= -> _]. done.
    + intros [= <- _]. done.
    + intros [= Hhi Hlo H]. rewrite (IH t H). f_equal.
      pose proof (ascii_bound c). pose proof (ascii_bound d).
      apply hex_digit_inj in Hhi;
        [|apply N.Div0.div_lt_upper_bound; lia..].
      apply hex_digit_inj in Hlo; [|apply N.mod_lt; lia..].
      assert (N_of_ascii c = N_of_ascii d) as E.
      { rewrite (N.div_mod' (N_of_ascii c) 16), (N.div_mod' (N_of_ascii d) 16).
        by rewrite Hhi, Hlo. }
      apply (f_equal ascii_of_N) in E. by rewrite !ascii_N_embedding in E.
Qed.

Lemma string_app_length (a b : string) :
  String.length (a +:+ b) = (String.length a + String.length b)%nat.
Proof.
  induction a as [|x a IH]; [reflexivity|].
  cbv [String.append]. fold String.append. simpl. by rewrite IH.
Qed.

Lemma string_app_inj_r (a b c : string) : a +:+ c = b +:+ c -> a = b.
Proof.
  revert b. induction a as [|x a IH]; intros [|y b] H.
  - done.
  - apply (f_equal String.length) in H.
    rewrite !string_app_length in H. simpl in H. lia.
  - apply (f_equal String.length) in H.
    rewrite !string_app_length in H. simpl in H. lia.
  - cbv [String.append] in H. fold String.append in H.
    injection H as -> H. by rewrite (IH b H).
Qed.

(** X15. Different names never share a request: the full-text URL and the
    relaxed URL of variant B each determine the name they were built from,
    and no full-text URL is a relaxed URL of the same name. *)
Theorem variantB_urls_determine_name (name name' : string) :
  (VariantB.full_text_url name = VariantB.full_text_url name' <->
     name = name') /\
  (VariantB.relaxed_url name = VariantB.relaxed_url name' <-> name = name') /\
  VariantB.full_text_url name <> VariantB.relaxed_url name.
Proof.
  assert (Hrel : VariantB.relaxed_url name = VariantB.relaxed_url name' ->
                 name = name').
  { unfold VariantB.relaxed_url. intros H.
    apply (inj (String.app COUNTRIES_API)) in H.
    apply (inj (String.app "/name/")) in H. by apply encode_inj. }
  split; [|split].
  - split; [|by intros ->]. rewrite !full_text_url_relaxed.
    intros H%string_app_inj_r. by apply Hrel.
  - split; [exact Hrel | by intros ->].
  - rewrite full_text_url_relaxed. intros H.
    apply (f_equal String.length) in H.
    rewrite string_app_length in H. simpl in H. lia.
Qed.

End SelectionKeys.

(** ** More on variant B: the guard, the statuses, the formatted record *)

Section GuardedRoute.
Import Js Http VariantB Spec.

Lemma split_words s : Forall (fun w => one_word w = true) (split " " s).
Proof.
  induction s as [|c s IH]; simpl.
  - by repeat constructor.
  - destruct (Ascii.eqb c " ") eqn:Ec.
    + by constructor.
    + destruct (split " " s) as [|h t].
      * constructor; [|done]. simpl. by rewrite Ec.
      * apply Forall_cons in IH as [Hh Ht].
        constructor; [|done]. simpl. by rewrite Ec, Hh.
Qed.

(** X16. A secret that holds a space shuts everybody out: the guard compares
    with one word of the header, so no header at all is accepted, the one
    made of [Bearer ] and the secret included. *)
Theorem secret_with_space_locks_out (token : string) (req : Request) :
  one_word token = false ->
  authMiddleware token req = Replied unauthorized.
Proof.
  intros Htok. unfold authMiddleware.
  destruct (authorization req) as [auth|]; [|done].
  assert (second_differs auth token = true) as ->;
    [|by rewrite orb_true_r].
  unfold second_differs. destruct (split " " auth !! 1%nat) as [t|] eqn:E; [|done].
  apply negb_true_iff, String.eqb_neq. intros ->.
  pose proof (split_words auth) as Hall.
  rewrite Forall_lookup in Hall. specialize (Hall _ _ E). simpl in Hall.
  congruence.
Qed.

Lemma secret_with_space_locks_out_witness :
  authMiddleware "my secret"
    (mkRequest "GET" "/api/countries/peru" (Some "Bearer my secret"))
  = Replied unauthorized.
Proof.
  apply (secret_with_space_locks_out "my secret"
           (mkRequest "GET" "/api/countries/peru" (Some "Bearer my secret"))).
  reflexivity.
Defined.

Lemma split_first r :
  exists w tl, split " " r = w :: tl /\
    ((r = w /\ tl = []) \/ exists rest, r = w +:+ " " +:+ rest).
Proof.
  induction r as [|c r IH]; simpl.
  - exists "", []. auto.
  - destruct (Ascii.eqb_spec c " ") as [->|Hc].
    + exists "", (split " " r). split; [done|]. right. by exists r.
    + destruct IH as (w & tl & -> & [[-> ->]|[rest ->]]).
      * exists (String c w), []. auto.
      * exists (String c w), tl. split; [done|]. right. by exists rest.
Qed.

Lemma split_word_rest w rest :
  one_word w = true ->
  split " " (w +:+ " " +:+ rest) = w :: split " " rest.
Proof.
  change (" " +:+ rest) with (String " "%char rest).
  induction w as [|c w IH]; intros Hw.
  - reflexivity.
  - simpl in Hw. apply andb_true_iff in Hw as [Hc Hw].
    cbv [String.append]. fold String.append. simpl.
    apply negb_true_iff in Hc. by rewrite Hc, (IH Hw).
Qed.

Lemma split_bearer_cons r :
  split " " ("Bearer " +:+ r) = "Bearer" :: split " " r.
Proof. apply (split_word_rest "Bearer" r). reflexivity. Qed.

(** X17. For a one-word secret the guard accepts exactly the headers that
    are [Bearer ], the secret, and then nothing or a space and anything. *)
Theorem accepted_headers (token : string) (req : Request) :
  one_word token = true ->
  authMiddleware token req = Next <->
  exists auth, authorization req = Some auth /\
    (auth = "Bearer " +:+ token \/
     exists rest, auth = "Bearer " +:+ token +:+ " " +:+ rest).
Proof.
  intros Htok. unfold authMiddleware. split.
  - destruct (authorization req) as [auth|]; [|done].
    destruct (startsWith auth "Bearer ") eqn:Hpre;
      [|by destruct (truthy (JStr auth))].
    apply startsWith_prefix in Hpre as [r ->].
    unfold second_differs. rewrite split_bearer_cons.
    destruct (split_first r) as (w & tl & Hsplit & Hshape).
    rewrite Hsplit. cbn [lookup list_lookup].
    destruct (String.eqb_spec w token) as [->|Hne];
      [|by destruct (truthy _)].
    intros _. eexists. split; [done|].
    destruct Hshape as [[-> _]|[rest ->]]; [by left | right; by exists rest].
  - intros (auth & -> & [->|[rest ->]]).
    + rewrite startsWith_append. unfold second_differs.
      rewrite (split_bearer _ Htok), String.eqb_refl. reflexivity.
    + rewrite startsWith_append. unfold second_differs.
      rewrite split_bearer_cons. simpl.
      rewrite (split_word_rest _ _ Htok). simpl.
      rewrite String.eqb_refl. reflexivity.
Qed.

Lemma accepted_headers_witness :
  authMiddleware "secrettoken123"
    (mkRequest "GET" "/api/countries/peru" (Some "Bearer secrettoken123 x"))
  = Next.
Proof.
  apply (accepted_headers "secrettoken123"
           (mkRequest "GET" "/api/countries/peru"
              (Some "Bearer secrettoken123 x"))); [reflexivity|].
  exists "Bearer secrettoken123 x". split; [reflexivity|].
  right. by exists "x".
Defined.

(** X18. The secret is never empty: whatever the environment, the header
    [Bearer ] with nothing behind it is rejected; and when the variable is
    unset or empty the secret is the default of the source, which then
    opens the guard. *)
Theorem secret_default (env : option string) (m u : string) :
  AUTH_TOKEN env <> "" /\
  authMiddleware (AUTH_TOKEN env) (mkRequest m u (Some "Bearer "))
    = Replied unauthorized /\
  (env = None \/ env = Some "" ->
   authMiddleware (AUTH_TOKEN env)
     (mkRequest m u (Some "Bearer secrettoken123")) = Next).
Proof.
  assert (Hne : AUTH_TOKEN env <> "").
  { unfold AUTH_TOKEN. destruct env as [t|]; [|done].
    by destruct (String.eqb_spec t ""). }
  split; [done|]. split.
  - revert Hne. generalize (AUTH_TOKEN env) as tok. intros tok Hne.
    unfold authMiddleware, second_differs. simpl. by destruct tok.
  - by intros [->| ->].
Qed.

Lemma secret_default_witness :
  authMiddleware (AUTH_TOKEN (Some ""))
    (mkRequest "GET" "/api/countries/peru" (Some "Bearer secrettoken123"))
  = Next.
Proof.
  apply (proj2 (proj2 (secret_default (Some "") "GET" "/api/countries/peru"))).
  right. reflexivity.
Defined.

(** X19. A request the guard rejects never reaches the provider: the answer
    is the 401 and the log of upstream requests is as it was. *)
Theorem rejected_makes_no_request
    (token : string) (up : Upstream) (req : Request) (name : string)
    (log : list string) :
  authMiddleware token req <> Next ->
  country_route token up req name log = (unauthorized, log).
Proof.
  intros H. unfold country_route.
  by destruct (authMiddleware_cases token req) as [?| ->].
Qed.

Lemma rejected_makes_no_request_witness :
  country_route "secrettoken123" empty_upstream
    (mkRequest "GET" "/api/countries/peru" (Some "Basic dXNlcjpwdw=="))
    "peru" [] = (unauthorized, []).
Proof.
  apply (rejected_makes_no_request "secrettoken123" empty_upstream
           (mkRequest "GET" "/api/countries/peru" (Some "Basic dXNlcjpwdw=="))
           "peru" []).
  discriminate.
Defined.

(** X20. Variant B has three statuses: the route answers 200, 401 or 404
    and nothing else; every failure of the fetch, a timeout or a 5xx of the
    provider as well, is answered 404 with the message of the error as
    details. *)
Theorem variantB_statuses
    (token : string) (up : Upstream) (req : Request) (name : string)
    (log : list string) :
  (status (country_route token up req name log).1 = 200 \/
   status (country_route token up req name log).1 = 401 \/
   status (country_route token up req name log).1 = 404) /\
  (forall error log',
     fetchByName up name log = (Thrown error, log') ->
     get_country up name log =
       (mkResponse 404
          (JObj [("error", JStr "País não encontrado");
                 ("details", JStr (message error))]), log')).
Proof.
  split.
  - unfold country_route.
    destruct (authMiddleware_cases token req) as [-> | ->]; [|auto].
    unfold get_country. destruct (fetchByName up name log) as [[data|e] l].
    + destruct (no_result data); [auto|].
      destruct (formatCountry _); auto.
    + auto.
  - intros error log' H. unfold get_country. by rewrite H.
Qed.

Lemma variantB_statuses_witness :
  get_country
    (fun _ _ => Thrown (mkError "timeout of 5000ms exceeded" None true))
    "peru" [] =
  (mkResponse 404
     (JObj [("error", JStr "País não encontrado");
            ("details", JStr "timeout of 5000ms exceeded")]),
   ["https://restcountries.com/v3.1/name/peru?fullText=true"]).
Proof.
  apply (proj2 (variantB_statuses "secrettoken123"
     (fun _ _ => Thrown (mkError "timeout of 5000ms exceeded" None true))
     (mkRequest "GET" "/api/countries/peru" None) "peru" [])
     (mkError "timeout of 5000ms exceeded" None true)).
  reflexivity.
Defined.

(** X21. When the relaxed request is rejected too, the answer reports the
    second rejection: two requests were made and the details are the message
    of the second error, whatever the first one said. *)
Theorem fallback_failure_reports_second
    (up : Upstream) (name : string) (log : list string)
    (e1 e2 : JsError) :
  up log (full_text_url name) = Thrown e1 ->
  client_miss e1 ->
  up (log ++ [full_text_url name]) (relaxed_url name) = Thrown e2 ->
  get_country up name log =
    (mkResponse 404
       (JObj [("error", JStr "País não encontrado");
              ("details", JStr (message e2))]),
     log ++ [full_text_url name; relaxed_url name]).
Proof.
  intros H1 Hmiss%client_miss_decide H2.
  unfold get_country, fetchByName, axios_get. rewrite H1, Hmiss, H2.
  by rewrite <- app_assoc.
Qed.

Lemma fallback_failure_reports_second_witness :
  get_country
    (fun log _ =>
       match log with
       | [] => Thrown (mkError "Request failed with status code 404"
                         (Some (mkReply 404 JNull)) true)
       | _ => Thrown (mkError "Network Error" None true)
       end) "peru" [] =
  (mkResponse 404
     (JObj [("error", JStr "País não encontrado");
            ("details", JStr "Network Error")]),
   ["https://restcountries.com/v3.1/name/peru?fullText=true";
    "https://restcountries.com/v3.1/name/peru"]).
Proof.
  apply (fallback_failure_reports_second _ "peru" []
           (mkError "Request failed with status code 404"
              (Some (mkReply 404 JNull)) true)
           (mkError "Network Error" None true)).
  - reflexivity.
  - exists (mkReply 404 JNull). split; [reflexivity | right; reflexivity].
  - reflexivity.
Defined.

End GuardedRoute.

Section FormattedRecord.
Import Js Http VariantB Spec.

Lemma currencies_outcome (l : list (string * JsVal)) :
  (Forall (fun kv => nullish kv.2 = false) l /\
   exists r, map_throw currency_entry l = Ok r /\ length r = length l) \/
  (Exists (fun kv => nullish kv.2 = true) l /\
   exists what, map_throw currency_entry l = Thrown (type_error what)).
Proof.
  induction l as [|[code c] l IH]; simpl.
  - left. split; [constructor|]. by exists [].
  - destruct (nullish c) eqn:Ec; simpl.
    + right. split; [by constructor|]. by eexists.
    + destruct IH as [[Hall (r & -> & Hlen)]|[Hex (what & ->)]]; simpl.
      * left. split; [by constructor|]. eexists. split; [done|].
        simpl. by rewrite Hlen.
      * right. split; [by apply Exists_cons_tl|]. by eexists.
Qed.

Lemma exists_not_forall (l : list (string * JsVal)) :
  Exists (fun kv => nullish kv.2 = true) l ->
  Forall (fun kv => nullish kv.2 = false) l -> False.
Proof.
  induction 1 as [kv l H|kv l _ IH]; intros Hall;
    apply Forall_cons in Hall as [H1 H2]; [congruence | auto].
Qed.

(** X22. [formatCountry] fails in two cases only: the record is [null] or
    [undefined], or its [currencies] is truthy and one of its entries is
    [null] or [undefined]; on every other value, whatever its shape, it
    returns a record. *)
Theorem formatCountry_failures (country : JsVal) :
  (exists error, formatCountry country = Thrown error) <->
  nullish country = true \/
  (truthy (prop country "currencies") = true /\
   Exists (fun kv => nullish kv.2 = true)
     (object_entries (prop country "currencies"))).
Proof.
  unfold formatCountry. destruct (nullish country) eqn:Ec.
  - split; [auto | by eexists].
  - destruct (truthy (prop country "currencies")) eqn:Et.
    + destruct (currencies_outcome (object_entries (prop country "currencies")))
        as [[Hall (r & -> & _)]|[Hex (what & ->)]]; simpl.
      * split; [by intros [e [=]]|].
        intros [[=]|[_ Hex]]. destruct (exists_not_forall _ Hex Hall).
      * split; [auto | by eexists].
    + simpl. split; [by intros [e [=]]|]. by intros [[=]|[[=] _]].
Qed.

(** X23. A formatted record has one shape: whenever [formatCountry]
    returns, the result is an object with the fourteen fields of the
    source, in their order, whatever the provider's record held; the ten
    fields closed with [|| null] hold a truthy value or [null], so a falsy
    value of the provider, a population of 0 for one, is reported as
    [null]. *)
Theorem formatCountry_shape (country v : JsVal) :
  formatCountry country = Ok v ->
  exists o, v = JObj o /\
    map fst o = formatted_keys /\
    forall k, k ∈ or_null_keys ->
      exists x, obj_get o k = Some x /\ (x = JNull \/ truthy x = true).
Proof.
  assert (Hor : forall a, js_or a JNull = JNull \/ truthy (js_or a JNull) = true).
  { intros a. unfold js_or. destruct (truthy a) eqn:E; auto. }
  assert (Hor2 : forall a b,
    js_or a (js_or b JNull) = JNull \/ truthy (js_or a (js_or b JNull)) = true).
  { intros a b. unfold js_or at 1 3. destruct (truthy a) eqn:E; auto. }
  unfold formatCountry. destruct (nullish country); [done|].
  destruct (if truthy (prop country "currencies") then _ else _)
    as [currencies|]; [|done].
  simpl. intros [= <-]. eexists. split; [done|]. split; [done|].
  intros k Hk. unfold or_null_keys in Hk.
  repeat (apply elem_of_cons in Hk as [->|Hk];
          [eexists; split; [reflexivity|]; auto|]).
  by apply elem_of_nil in Hk.
Qed.

Lemma formatCountry_shape_witness :
  exists o,
    JObj [("name", JStr "Bouvet Island"); ("officialName", JNull);
          ("code", JNull); ("cca3", JNull); ("flag", JNull);
          ("population", JNull); ("region", JNull); ("subregion", JNull);
          ("capital", JNull); ("languages", JNull); ("currencies", JNull);
          ("maps", JObj [("googleMaps", JUndefined);
                         ("openStreetMaps", JUndefined)]);
          ("timezones", JNull); ("coordinates", JNull)] = JObj o /\
    map fst o = formatted_keys /\
    forall k, k ∈ or_null_keys ->
      exists x, obj_get o k = Some x /\ (x = JNull \/ truthy x = true).
Proof.
  apply (formatCountry_shape
           (JObj [("name", JObj [("common", JStr "Bouvet Island")]);
                  ("population", JNum 0)])).
  reflexivity.
Defined.

(** X24. Only the first record of the provider's answer counts: when the
    fetch gives a non-empty array, the answer is the formatted first
    element with status 200, or the 404 of the catch when formatting it
    fails; the other elements are never read. *)
Theorem first_record_only
    (up : Upstream) (name : string) (log log' : list string)
    (first : JsVal) (rest : list JsVal) :
  fetchByName up name log = (Ok (JArr (first :: rest)), log') ->
  get_country up name log =
    (match formatCountry first with
     | Ok country => mkResponse 200 country
     | Thrown error => failed error
     end, log').
Proof.
  intros H. unfold get_country. rewrite H.
  change (no_result (JArr (first :: rest))) with false. cbn iota.
  change (prop (JArr (first :: rest)) "0") with first.
  by destruct (formatCountry first).
Qed.

Lemma first_record_only_witness :
  get_country (fun _ _ => Ok (JArr [JNull; country "Peru"])) "peru" [] =
    (match formatCountry JNull with
     | Ok country => mkResponse 200 country
     | Thrown error => failed error
     end, ["https://restcountries.com/v3.1/name/peru?fullText=true"]).
Proof.
  apply (first_record_only (fun _ _ => Ok (JArr [JNull; country "Peru"]))
           "peru" [] _ JNull [country "Peru"]).
  reflexivity.
Defined.

(** X25. The formatted name is the name the listing searches: for a record
    with a common name, [formatCountry] reports that name, and [null] when
    it is the empty string. *)
Theorem formatted_name_is_common_name
    (country : JsVal) (o : list (string * JsVal)) (n : string) :
  formatCountry country = Ok (JObj o) ->
  common_name country = Some n ->
  obj_get o "name" = Some (if String.eqb n "" then JNull else JStr n).
Proof.
  unfold formatCountry, common_name.
  destruct (nullish country) eqn:Ec; [done|].
  assert (opt_get country "name" = prop country "name") as ->
    by (unfold opt_get; by rewrite Ec).
  destruct (if truthy (prop country "currencies") then _ else _)
    as [currencies|]; [|done].
  simpl. intros [= <-] Hn. simpl.
  destruct (opt_get (prop country "name") "common"); try done.
  injection Hn as ->. unfold js_or. simpl. by destruct (String.eqb n "").
Qed.

Lemma formatted_name_is_common_name_witness :
  obj_get
    [("name", JStr "Peru"); ("officialName", JNull);
     ("code", JNull); ("cca3", JNull); ("flag", JNull);
     ("population", JNull); ("region", JNull); ("subregion", JNull);
     ("capital", JNull); ("languages", JNull); ("currencies", JNull);
     ("maps", JObj [("googleMaps", JUndefined);
                    ("openStreetMaps", JUndefined)]);
     ("timezones", JNull); ("coordinates", JNull)] "name" =
  Some (if String.eqb "Peru" "" then JNull else JStr "Peru").
Proof.
  apply (formatted_name_is_common_name (Spec.country "Peru")); reflexivity.
Defined.

End FormattedRecord.
